(** * The room session of [src/example.tsx] as a state machine

    The source is one React component, [App].  Its behaviour is a reaction
    to events: button presses, edits of the room field, messages from the
    signaling socket, callbacks of the peer connection, and the settling of
    promises the handlers [await].  The embedding below keeps

    - the component's state ([useState]) and refs ([useRef]) in one record;
    - the closure of a render (the values of [roomId] and [localStream] a
      function defined in that render sees) as an explicit [Env], because
      the socket handlers are registered once and keep the closure of the
      render that registered them;
    - every call into the media engine and every [emit] on the socket in
      two chronological logs, so that ordering and counting statements are
      statements about lists;
    - every [await] as a suspension: the handler's continuation is stored
      in [pending] and run by a later [Settle] event that carries the
      promise's outcome. *)

From Stdlib Require Import List String Ascii Bool Arith NArith Lia.
From Stdlib Require Import DecimalString DecimalN DecimalFacts.
Import ListNotations.
Open Scope string_scope.
Open Scope list_scope.

Set Implicit Arguments.

(** ** Data *)

(** A media track, a [MediaStream] (what [getTracks()] returns), a session
    description and an ICE candidate.  The last two are opaque payloads. *)
Definition Track := nat.
Definition MediaStream := list Track.
Definition Sdp := string.
Definition Candidate := string.

(** Identifier of an [RTCPeerConnection] object: the n-th one constructed. *)
Definition PcId := nat.

(** The variables of a render that the functions defined in it close over. *)
Record Env := mkEnv {
  e_roomId : string;
  e_localStream : option MediaStream
}.

(** Calls made on the media engine ([react-native-webrtc]), as they occur. *)
Inductive EngineCall :=
| NewPC (pc : PcId)
| AddTrack (pc : PcId) (t : Track)
| CreateOffer (pc : PcId)
| CreateAnswer (pc : PcId)
| SetLocalDescription (pc : PcId) (d : Sdp)
| SetRemoteDescription (pc : PcId) (d : Sdp)
| AddIceCandidate (pc : PcId) (c : Candidate)
| TrackStop (t : Track)
| Close (pc : PcId).

(** Messages handed to [socket.emit]. *)
Inductive OutMsg :=
| EmitJoin (room : string)
| EmitOffer (room : string) (d : Sdp)
| EmitAnswer (room : string) (d : Sdp)
| EmitIce (room : string) (c : Candidate)
| EmitLeave (room : string).

(** Messages for which [connectSocket] registers a handler. *)
Inductive InMsg :=
| Connect
| Joined (count : N)
| PeerJoined
| Ready
| Offer (d : Sdp)
| Answer (d : Sdp)
| IceCandidate (c : Candidate)
| PeerLeft.

(** How an awaited promise settles.  The value of a fulfilled promise is
    read by the continuations of [createOffer] and [createAnswer] only. *)
Inductive Outcome :=
| Fulfilled (v : Sdp)
| Rejected.

(** The rest of an async handler after one of its [await]s.  Each keeps the
    local [pc] of the handler and the closure the handler was defined in. *)
Inductive Cont :=
| ReadyCreated (env : Env) (pc : PcId)
| ReadyLocalSet (env : Env) (pc : PcId) (offer : Sdp)
| OfferRemoteSet (env : Env) (pc : PcId)
| OfferCreated (env : Env) (pc : PcId)
| OfferLocalSet (env : Env) (pc : PcId) (answer : Sdp)
| AnswerRemoteSet (pc : PcId)
| IceAdded.

(** What can happen to the mounted component. *)
Inductive Event :=
| LocalStreamAcquired (st : MediaStream)
| ChangeRoomId (r : string)
| PressButton
| Socket (m : InMsg)
| Settle (i : nat) (o : Outcome)
| PcIceCandidate (pc : PcId) (c : option Candidate)
| PcTrack (pc : PcId) (streams : list MediaStream).

(** ** State *)

Record State := mkState {
  roomId : string;
  joined : bool;
  status : string;
  localStream : option MediaStream;
  remoteStream : option MediaStream;
  (** [socketRef.current]: the socket, known by the closure of its handlers *)
  socketRef : option Env;
  (** [pcRef.current] *)
  pcRef : option PcId;
  (** the peer connections constructed so far, each with the closure of its
      [onicecandidate] and [ontrack] callbacks *)
  pcs : list Env;
  (** suspended handlers *)
  pending : list Cont;
  (** engine calls, oldest first *)
  calls : list EngineCall;
  (** emitted messages, oldest first *)
  sent : list OutMsg;
  (** [console.warn] lines of the ice-candidate handler *)
  console : list string
}.

Definition init : State :=
  mkState "test-room" false "idle" None None None None [] [] [] [] [].

Definition setRoomId v s :=
  mkState v (joined s) (status s) (localStream s) (remoteStream s)
    (socketRef s) (pcRef s) (pcs s) (pending s) (calls s) (sent s) (console s).
Definition setJoined v s :=
  mkState (roomId s) v (status s) (localStream s) (remoteStream s)
    (socketRef s) (pcRef s) (pcs s) (pending s) (calls s) (sent s) (console s).
Definition setStatus v s :=
  mkState (roomId s) (joined s) v (localStream s) (remoteStream s)
    (socketRef s) (pcRef s) (pcs s) (pending s) (calls s) (sent s) (console s).
Definition setLocalStream v s :=
  mkState (roomId s) (joined s) (status s) v (remoteStream s)
    (socketRef s) (pcRef s) (pcs s) (pending s) (calls s) (sent s) (console s).
Definition setRemoteStream v s :=
  mkState (roomId s) (joined s) (status s) (localStream s) v
    (socketRef s) (pcRef s) (pcs s) (pending s) (calls s) (sent s) (console s).
Definition setSocketRef v s :=
  mkState (roomId s) (joined s) (status s) (localStream s) (remoteStream s)
    v (pcRef s) (pcs s) (pending s) (calls s) (sent s) (console s).
Definition setPcRef v s :=
  mkState (roomId s) (joined s) (status s) (localStream s) (remoteStream s)
    (socketRef s) v (pcs s) (pending s) (calls s) (sent s) (console s).
Definition setPcs v s :=
  mkState (roomId s) (joined s) (status s) (localStream s) (remoteStream s)
    (socketRef s) (pcRef s) v (pending s) (calls s) (sent s) (console s).
Definition setPending v s :=
  mkState (roomId s) (joined s) (status s) (localStream s) (remoteStream s)
    (socketRef s) (pcRef s) (pcs s) v (calls s) (sent s) (console s).
Definition setCalls v s :=
  mkState (roomId s) (joined s) (status s) (localStream s) (remoteStream s)
    (socketRef s) (pcRef s) (pcs s) (pending s) v (sent s) (console s).
Definition setSent v s :=
  mkState (roomId s) (joined s) (status s) (localStream s) (remoteStream s)
    (socketRef s) (pcRef s) (pcs s) (pending s) (calls s) v (console s).
Definition setConsole v s :=
  mkState (roomId s) (joined s) (status s) (localStream s) (remoteStream s)
    (socketRef s) (pcRef s) (pcs s) (pending s) (calls s) (sent s) v.

(** One engine call, one suspension, one warning. *)
Definition call (c : EngineCall) (s : State) : State :=
  setCalls (calls s ++ [c]) s.
Definition callAll (cs : list EngineCall) (s : State) : State :=
  setCalls (calls s ++ cs) s.
Definition await (k : Cont) (s : State) : State :=
  setPending (pending s ++ [k]) s.
Definition warn (line : string) (s : State) : State :=
  setConsole (console s ++ [line]) s.

(** [socketRef.current?.emit(...)]: nothing happens without a socket. *)
Definition emit (m : OutMsg) (s : State) : State :=
  match socketRef s with
  | Some _ => setSent (sent s ++ [m]) s
  | None => s
  end.

(** The closure of the current render. *)
Definition render (s : State) : Env := mkEnv (roomId s) (localStream s).

(** JavaScript truthiness of a string: every string but the empty one. *)
Definition truthy (r : string) : bool :=
  match r with
  | EmptyString => false
  | String _ _ => true
  end.

(** [`${count}`] for a count that is a non-negative integer below [2^53]:
    its decimal numeral. *)
Definition numberToString (n : N) : string :=
  NilZero.string_of_uint (N.to_uint n).

(** The tracks of the senders of [pc]: those given to [pc.addTrack]. *)
Fixpoint senders (pc : PcId) (cs : list EngineCall) : list Track :=
  match cs with
  | [] => []
  | AddTrack pc' t :: cs' =>
      if Nat.eqb pc' pc then t :: senders pc cs' else senders pc cs'
  | _ :: cs' => senders pc cs'
  end.

(** [localStream.getTracks().forEach((t) => pc.addTrack(t, localStream))] *)
Definition addTracks (pc : PcId) (st : option MediaStream) : list EngineCall :=
  match st with
  | Some ts => map (AddTrack pc) ts
  | None => []
  end.

(** ** The functions of the component *)

(** [ensurePeer] (lines 83-108): constructs a peer connection only when
    [pcRef.current] is empty, attaches the tracks of the closure's
    [localStream], stores it, and returns [pcRef.current]. *)
Definition ensurePeer (env : Env) (s : State) : State * PcId :=
  match pcRef s with
  | Some pc => (s, pc)
  | None =>
      let pc := List.length (pcs s) in
      let s1 := call (NewPC pc) s in
      let s2 := setPcs (pcs s1 ++ [env]) s1 in
      let s3 := callAll (addTracks pc (e_localStream env)) s2 in
      (setPcRef (Some pc) s3, pc)
  end.

(** [endCall] (lines 165-177). *)
Definition endCall (env : Env) (s : State) : State :=
  let s1 :=
    match socketRef s with
    | Some _ =>
        if truthy (e_roomId env)
        then setSent (sent s ++ [EmitLeave (e_roomId env)]) s
        else s
    | None => s
    end in
  let s2 :=
    match pcRef s1 with
    | Some pc =>
        let s' := callAll (map TrackStop (senders pc (calls s1))) s1 in
        setPcRef None (call (Close pc) s')
    | None => s1
    end in
  setStatus "idle" (setJoined false (setRemoteStream None s2)).

(** [connectSocket] (lines 110-156): the socket is created, and its
    handlers registered with the closure [env], only when there is none. *)
Definition connectSocket (env : Env) (s : State) : State :=
  match socketRef s with
  | None => setSocketRef (Some env) s
  | Some _ => s
  end.

(** [joinRoom] (lines 158-163). *)
Definition joinRoom (env : Env) (s : State) : State :=
  match e_localStream env with
  | None => s
  | Some _ =>
      let s1 := connectSocket env s in
      let s2 := emit (EmitJoin (e_roomId env)) s1 in
      setJoined true s2
  end.

(** The effect on [localStream] (lines 188-194). *)
Definition attachEffect (s : State) : State :=
  match pcRef s, localStream s with
  | Some pc, Some ts => callAll (map (AddTrack pc) ts) s
  | _, _ => s
  end.

Definition removeAt {A} (i : nat) (l : list A) : list A :=
  firstn i l ++ skipn (S i) l.

Section Engine.

(** The constructors [RTCSessionDescription] and [RTCIceCandidate] belong
    to the engine; whether they return or throw on a payload is left open. *)
Variable sessionDescriptionOk : Sdp -> bool.
Variable iceCandidateOk : Candidate -> bool.

(** The handlers registered by [connectSocket], up to their first [await].
    [env] is the closure of the render that called [connectSocket]. *)
Definition onSocket (env : Env) (m : InMsg) (s : State) : State :=
  match m with
  | Connect => setStatus "socket connected" s
  | Joined count =>
      setStatus ("joined room (" ++ numberToString count ++ ")") s
  | PeerJoined => setStatus "peer joined, waiting for ready" s
  | Ready =>
      let (s1, pc) := ensurePeer env s in
      await (ReadyCreated env pc) (call (CreateOffer pc) s1)
  | Offer d =>
      let (s1, pc) := ensurePeer env s in
      if sessionDescriptionOk d
      then await (OfferRemoteSet env pc) (call (SetRemoteDescription pc d) s1)
      else s1
  | Answer d =>
      let (s1, pc) := ensurePeer env s in
      if sessionDescriptionOk d
      then await (AnswerRemoteSet pc) (call (SetRemoteDescription pc d) s1)
      else s1
  | IceCandidate c =>
      let (s1, pc) := ensurePeer env s in
      if iceCandidateOk c
      then await IceAdded (call (AddIceCandidate pc c) s1)
      else warn "Failed to add ICE" s1
  | PeerLeft => endCall env (setStatus "peer left" s)
  end.

(** A handler resumed after an [await].  A rejection ends every handler
    but the ice-candidate one, whose [catch] logs it. *)
Definition resume (k : Cont) (o : Outcome) (s : State) : State :=
  match k, o with
  | ReadyCreated env pc, Fulfilled offer =>
      await (ReadyLocalSet env pc offer) (call (SetLocalDescription pc offer) s)
  | ReadyLocalSet env pc offer, Fulfilled _ =>
      setStatus "sent offer" (emit (EmitOffer (e_roomId env) offer) s)
  | OfferRemoteSet env pc, Fulfilled _ =>
      await (OfferCreated env pc) (call (CreateAnswer pc) s)
  | OfferCreated env pc, Fulfilled answer =>
      await (OfferLocalSet env pc answer)
        (call (SetLocalDescription pc answer) s)
  | OfferLocalSet env pc answer, Fulfilled _ =>
      setStatus "answered offer" (emit (EmitAnswer (e_roomId env) answer) s)
  | AnswerRemoteSet pc, Fulfilled _ => setStatus "connected (answer set)" s
  | IceAdded, Fulfilled _ => s
  | IceAdded, Rejected => warn "Failed to add ICE" s
  | _, Rejected => s
  end.

(** One reaction of the component. *)
Definition step (s : State) (e : Event) : State :=
  match e with
  | LocalStreamAcquired st => attachEffect (setLocalStream (Some st) s)
  | ChangeRoomId r => setRoomId r s
  | PressButton =>
      if joined s then endCall (render s) s else joinRoom (render s) s
  | Socket m =>
      match socketRef s with
      | Some env => onSocket env m s
      | None => s
      end
  | Settle i o =>
      match nth_error (pending s) i with
      | Some k => resume k o (setPending (removeAt i (pending s)) s)
      | None => s
      end
  | PcIceCandidate pc c =>
      match nth_error (pcs s) pc, c with
      | Some env, Some c' => emit (EmitIce (e_roomId env) c') s
      | _, _ => s
      end
  | PcTrack pc streams =>
      match nth_error (pcs s) pc with
      | Some _ => setRemoteStream (hd_error streams) s
      | None => s
      end
  end.

Definition run (s : State) (tr : list Event) : State := fold_left step tr s.

End Engine.

(** ** Vocabulary of the properties *)

(** The connection an engine call is made on. *)
Definition target (c : EngineCall) : option PcId :=
  match c with
  | NewPC pc | AddTrack pc _ | CreateOffer pc | CreateAnswer pc
  | SetLocalDescription pc _ | SetRemoteDescription pc _
  | AddIceCandidate pc _ | Close pc => Some pc
  | TrackStop _ => None
  end.

(** The connection a suspended handler holds in its local [pc]. *)
Definition contPc (k : Cont) : option PcId :=
  match k with
  | ReadyCreated _ pc | ReadyLocalSet _ pc _ | OfferRemoteSet _ pc
  | OfferCreated _ pc | OfferLocalSet _ pc _ | AnswerRemoteSet pc => Some pc
  | IceAdded => None
  end.

Definition isAddIce (c : EngineCall) : bool :=
  match c with AddIceCandidate _ _ => true | _ => false end.
Definition isNewPC (c : EngineCall) : bool :=
  match c with NewPC _ => true | _ => false end.

(** The candidates handed to [addIceCandidate], in order. *)
Definition iceCalls (cs : list EngineCall) : list EngineCall :=
  filter isAddIce cs.

(** How often candidate [c] was handed to connection [pc]. *)
Fixpoint countIce (pc : PcId) (c : Candidate) (cs : list EngineCall) : nat :=
  match cs with
  | [] => 0
  | AddIceCandidate pc' c' :: cs' =>
      (if Nat.eqb pc' pc && String.eqb c' c then 1 else 0) + countIce pc c cs'
  | _ :: cs' => countIce pc c cs'
  end.

(** The calls that follow the first [setRemoteDescription] on [pc]. *)
Fixpoint afterRemote (pc : PcId) (cs : list EngineCall) : list EngineCall :=
  match cs with
  | [] => []
  | SetRemoteDescription pc' d :: cs' =>
      if Nat.eqb pc' pc then cs' else afterRemote pc cs'
  | _ :: cs' => afterRemote pc cs'
  end.

Definition hasRemote (pc : PcId) (cs : list EngineCall) : bool :=
  existsb (fun c => match c with
                    | SetRemoteDescription pc' _ => Nat.eqb pc' pc
                    | _ => false
                    end) cs.

Definition isOffer (m : OutMsg) : bool :=
  match m with EmitOffer _ _ => true | _ => false end.
Definition isAnswer (m : OutMsg) : bool :=
  match m with EmitAnswer _ _ => true | _ => false end.
Definition isLeave (m : OutMsg) : bool :=
  match m with EmitLeave _ => true | _ => false end.

Definition countOffers (l : list OutMsg) : nat := List.length (filter isOffer l).
Definition countAnswers (l : list OutMsg) : nat := List.length (filter isAnswer l).
Definition countLeaves (l : list OutMsg) : nat := List.length (filter isLeave l).

(** Deliveries of [ready] and of [offer] in a sequence of events. *)
Definition isReadyEv (e : Event) : bool :=
  match e with Socket Ready => true | _ => false end.
Definition isOfferEv (e : Event) : bool :=
  match e with Socket (Offer _) => true | _ => false end.
Definition isIceEv (e : Event) : bool :=
  match e with Socket (IceCandidate _) => true | _ => false end.

(** Suspended [ready] handlers and suspended [offer] handlers. *)
Definition isReadyCont (k : Cont) : bool :=
  match k with ReadyCreated _ _ | ReadyLocalSet _ _ _ => true | _ => false end.
Definition isOfferCont (k : Cont) : bool :=
  match k with
  | OfferRemoteSet _ _ | OfferCreated _ _ | OfferLocalSet _ _ _ => true
  | _ => false
  end.

(** Offers emitted plus [ready] handlers still suspended, and the same for
    answers and [offer] handlers. *)
Definition offersDue (s : State) : nat :=
  countOffers (sent s) + List.length (filter isReadyCont (pending s)).
Definition answersDue (s : State) : nat :=
  countAnswers (sent s) + List.length (filter isOfferCont (pending s)).

(** Events that do not run [endCall]; the Join press is left out with the
    Leave press. *)
Definition noTeardown (e : Event) : bool :=
  match e with
  | PressButton | Socket PeerLeft => false
  | _ => true
  end.

(** What a user or the peer can see of the session. *)
Definition observable (s : State)
  : bool * string * option MediaStream * option PcId * list OutMsg :=
  (joined s, status s, remoteStream s, pcRef s, sent s).

(** The state the spec calls Idle. *)
Definition idle (s : State) : Prop :=
  pcRef s = None /\ remoteStream s = None /\ status s = "idle" /\
  joined s = false.

(** A connection is open when it was constructed and not closed. *)
Definition open (pc : PcId) (cs : list EngineCall) : Prop :=
  In (NewPC pc) cs /\ ~ In (Close pc) cs.

(** The bookkeeping of connections: [n] connections were constructed, [r]
    is the reference, [cs] the call log.  Constructed connections have the
    identifiers below [n], the reference points at one of them, and every
    one it does not point at has been closed. *)
Record Tracked (n : nat) (r : option PcId) (cs : list EngineCall) : Prop := {
  tracked_new : forall pc, In (NewPC pc) cs -> pc < n;
  tracked_ref : forall pc, r = Some pc -> pc < n;
  tracked_closed : forall pc, pc < n -> r <> Some pc -> In (Close pc) cs
}.

Definition tracked (s : State) : Prop :=
  Tracked (List.length (pcs s)) (pcRef s) (calls s).

(** An engine in which both constructors accept every payload. *)
Definition accept (_ : string) : bool := true.

(** ** Four requirements, stated as they are written

    Each is a closed proposition about the executions of the component;
    they are compared with the code further down. *)

(** A candidate that arrives while the current connection has no remote
    description reaches the engine exactly once, and that one time is after
    the remote description. *)
Definition candidates_buffered_until_remote : Prop :=
  forall (sdOk iceOk : string -> bool) (tr1 tr2 : list Event)
         (c : Candidate) (pc : PcId),
    let s1 := run sdOk iceOk init (tr1 ++ [Socket (IceCandidate c)]) in
    let s2 := run sdOk iceOk s1 tr2 in
    socketRef (run sdOk iceOk init tr1) <> None ->
    pcRef s1 = Some pc ->
    hasRemote pc (calls s1) = false ->
    pcRef s2 = Some pc ->
    hasRemote pc (calls s2) = true ->
    countIce pc c (calls s2) = 1 /\
    countIce pc c (afterRemote pc (calls s2)) = 1.

(** After a leave and a new join, the settling of a promise that a handler
    of the earlier attempt awaits changes nothing that can be observed. *)
Definition stale_results_are_inert : Prop :=
  forall (sdOk iceOk : string -> bool) (tr : list Event) (i : nat)
         (o : Outcome),
    let s0 := run sdOk iceOk init tr in
    joined s0 = true ->
    i < List.length (pending s0) ->
    let s := step sdOk iceOk (step sdOk iceOk s0 PressButton) PressButton in
    observable (step sdOk iceOk s (Settle i o)) = observable s.

(** Between the join and the next teardown at most one offer and at most
    one answer are emitted. *)
Definition one_offer_one_answer_per_attempt : Prop :=
  forall (sdOk iceOk : string -> bool) (st : MediaStream) (tr : list Event),
    forallb noTeardown tr = true ->
    let s :=
      run sdOk iceOk init ([LocalStreamAcquired st; PressButton] ++ tr) in
    countOffers (sent s) <= 1 /\ countAnswers (sent s) <= 1.

(** A local leave emits one [leave]; a teardown caused by [peer-left]
    emits none. *)
Definition leave_only_when_local : Prop :=
  forall (sdOk iceOk : string -> bool) (tr : list Event),
    let s := run sdOk iceOk init tr in
    joined s = true ->
    countLeaves (sent (step sdOk iceOk s PressButton))
      = S (countLeaves (sent s)) /\
    countLeaves (sent (step sdOk iceOk s (Socket PeerLeft)))
      = countLeaves (sent s).

(** ** Executions used as examples *)

(** Join, then a candidate arrives, the engine rejects it, then the offer
    arrives and is applied. *)
Definition early_candidate_run : list Event :=
  [ LocalStreamAcquired [1; 2]; PressButton;
    Socket (IceCandidate "cand-1"); Settle 0 Rejected;
    Socket (Offer "sdp-offer"); Settle 0 (Fulfilled "") ].

(** Join and receive [ready]; the offer is created and is being set as the
    local description. *)
Definition offer_in_flight_run : list Event :=
  [ LocalStreamAcquired [1; 2]; PressButton;
    Socket Ready; Settle 0 (Fulfilled "sdp-offer") ].

(** [ready] delivered twice after the join, each handler running to its
    end. *)
Definition ready_twice : list Event :=
  [ Socket Ready; Settle 0 (Fulfilled "sdp-1"); Settle 0 (Fulfilled "");
    Socket Ready; Settle 0 (Fulfilled "sdp-2"); Settle 0 (Fulfilled "") ].

(** Join the default room, leave, type another room, join it, and receive
    [ready]. *)
Definition rejoin_other_room : list Event :=
  [ LocalStreamAcquired [1; 2]; PressButton; PressButton;
    ChangeRoomId "r2"; PressButton;
    Socket Ready; Settle 0 (Fulfilled "sdp-offer"); Settle 0 (Fulfilled "") ].

(** The offerer's side of a complete negotiation. *)
Definition connected_run : list Event :=
  [ LocalStreamAcquired [1; 2]; PressButton; Socket (Joined 2);
    Socket Ready; Settle 0 (Fulfilled "sdp-offer"); Settle 0 (Fulfilled "");
    Socket (Answer "sdp-answer"); Settle 0 (Fulfilled "") ].

(** ** Permissions, capture and unmount *)

(** The settling of a promise with a value of type [A]. *)
Inductive Promise (A : Type) :=
| Resolves (a : A)
| Rejects.
Arguments Resolves {A} a.
Arguments Rejects {A}.

(** The object [requestMultiple] resolves with: a permission name may be a
    key of it, with a string as its value, or be missing. *)
Definition Grants := string -> option string.

(** [granted[key] === GRANTED] *)
Definition isGranted (GRANTED : string) (granted : Grants) (key : string)
  : bool :=
  match granted key with
  | Some v => String.eqb v GRANTED
  | None => false
  end.

(** [requestPermissions] (lines 36-62), given [Platform.OS], the constant
    [PermissionsAndroid.RESULTS.GRANTED] and the way the request settles.
    Returns the boolean and the lines written to the console. *)
Definition requestPermissions (os GRANTED : string) (req : Promise Grants)
  : bool * list string :=
  if String.eqb os "android" then
    match req with
    | Resolves granted =>
        let camGranted :=
          isGranted GRANTED granted "android.permission.CAMERA" in
        let micGranted :=
          isGranted GRANTED granted "android.permission.RECORD_AUDIO" in
        if negb camGranted || negb micGranted
        then (false, ["Permissions denied"])
        else (true, [])
    | Rejects => (false, ["Permission error"])
    end
  else (true, []).

(** [getLocalStream] (lines 65-76) with the render that follows
    [setLocalStream] and its effect.  [media] is how [getUserMedia]
    settles; a rejection there ends the function. *)
Definition getLocalStream (os GRANTED : string) (req : Promise Grants)
    (media : Promise MediaStream) (s : State) : State :=
  let (ok, lines) := requestPermissions os GRANTED req in
  let s1 := setConsole (console s ++ lines) s in
  if ok then
    match media with
    | Resolves stream => attachEffect (setLocalStream (Some stream) s1)
    | Rejects => s1
    end
  else s1.

(** [cleanup] (lines 179-185).  [disconnect()] releases the socket; with
    the reference emptied no handler of it runs again. *)
Definition cleanup (env : Env) (s : State) : State :=
  let s1 := endCall env s in
  let s2 := setSocketRef None s1 in
  let s3 :=
    match e_localStream env with
    | Some ts => callAll (map TrackStop ts) s2
    | None => s2
    end in
  setLocalStream None s3.

(** The effect of lines 78-81 has no dependencies: the [cleanup] it returns
    is the one of the first render, whose [roomId] and [localStream] are
    the initial ones. *)
Definition mountEnv : Env := render init.
Definition unmount (s : State) : State := cleanup mountEnv s.

(** ** Vocabulary of the further properties *)

(** Nothing has happened yet: no stream, no socket, no connection, no
    suspended handler, nothing called and nothing emitted. *)
Definition quiet (s : State) : Prop :=
  localStream s = None /\ socketRef s = None /\ joined s = false /\
  pcRef s = None /\ pcs s = [] /\ pending s = [] /\ calls s = [] /\
  sent s = [].

Definition isAcquire (e : Event) : bool :=
  match e with LocalStreamAcquired _ => true | _ => false end.

(** The closure a suspended handler will emit from, if it emits. *)
Definition contEnv (k : Cont) : option Env :=
  match k with
  | ReadyCreated env _ | ReadyLocalSet env _ _ | OfferRemoteSet env _
  | OfferCreated env _ | OfferLocalSet env _ _ => Some env
  | AnswerRemoteSet _ | IceAdded => None
  end.

(** The room named by an offer, an answer or a candidate. *)
Definition negotiationRoom (m : OutMsg) : option string :=
  match m with
  | EmitOffer r _ | EmitAnswer r _ | EmitIce r _ => Some r
  | EmitJoin _ | EmitLeave _ => None
  end.

(** Everything that can emit a negotiation message does so from the
    closure [env]. *)
Record Bound (env : Env) (s : State) : Prop := {
  bound_stream : e_localStream env <> None;
  bound_local : localStream s <> None;
  bound_pcs : Forall (eq env) (pcs s);
  bound_pending :
    Forall (fun k => forall e, contEnv k = Some e -> e = env) (pending s);
  bound_sent :
    Forall (fun m => forall r, negotiationRoom m = Some r -> r = e_roomId env)
      (sent s)
}.

(** The state is either untouched by any join, or bound to the closure of
    the socket's handlers. *)
Definition wired (s : State) : Prop :=
  match socketRef s with
  | Some env => Bound env s
  | None =>
      joined s = false /\ pcRef s = None /\ pcs s = [] /\
      pending s = [] /\ sent s = []
  end.

(** How often a connection was constructed, and how often closed. *)
Fixpoint countNew (pc : PcId) (cs : list EngineCall) : nat :=
  match cs with
  | [] => 0
  | NewPC pc' :: cs' => (if Nat.eqb pc' pc then 1 else 0) + countNew pc cs'
  | _ :: cs' => countNew pc cs'
  end.
Fixpoint countClose (pc : PcId) (cs : list EngineCall) : nat :=
  match cs with
  | [] => 0
  | Close pc' :: cs' => (if Nat.eqb pc' pc then 1 else 0) + countClose pc cs'
  | _ :: cs' => countClose pc cs'
  end.

(** [n] connections were constructed, once each; the referenced one is not
    closed, the others are closed once. *)
Record Once (n : nat) (r : option PcId) (cs : list EngineCall) : Prop := {
  once_new : forall pc, countNew pc cs = if Nat.ltb pc n then 1 else 0;
  once_ref : forall pc, r = Some pc -> pc < n /\ countClose pc cs = 0;
  once_closed :
    forall pc, r <> Some pc -> countClose pc cs = if Nat.ltb pc n then 1 else 0
}.

(** The [await]s a suspended handler still has before it ends. *)
Definition awaitsLeft (k : Cont) : nat :=
  match k with
  | OfferRemoteSet _ _ => 3
  | ReadyCreated _ _ | OfferCreated _ _ => 2
  | ReadyLocalSet _ _ _ | OfferLocalSet _ _ _ | AnswerRemoteSet _
  | IceAdded => 1
  end.
Definition awaitsPending (s : State) : nat :=
  list_sum (map awaitsLeft (pending s)).

(** Calls that neither construct nor close a connection. *)
Definition plain (c : EngineCall) : bool :=
  match c with
  | NewPC _ | Close _ => false
  | _ => true
  end.

(** Every connection has the tracks of the stream its closure holds. *)
Definition Attached (ps : list Env) (cs : list EngineCall) : Prop :=
  forall (pc : PcId) (env : Env) (ts : MediaStream) (t : Track),
    nth_error ps pc = Some env -> e_localStream env = Some ts ->
    In t ts -> In (AddTrack pc t) cs.

(** * Properties *)

Unset Implicit Arguments.

(** ** Join, leave and status *)

(** C10.  [joinRoom] called in a render whose [localStream] is empty returns
    at once: the state, with its socket reference, emitted messages, joined
    flag and status, is the one it started from; so is a press of the Join
    button while no stream has been acquired. *)
Theorem joinRoom_without_stream_is_noop :
  forall (sdOk iceOk : string -> bool) (env : Env) (s : State),
    e_localStream env = None ->
    joinRoom env s = s /\
    (localStream s = None -> joined s = false ->
     step sdOk iceOk s PressButton = s).
Proof.
  intros sdOk iceOk env s Henv. split.
  - unfold joinRoom. now rewrite Henv.
  - intros Hls Hj. cbn [step]. rewrite Hj.
    unfold joinRoom, render. cbn [e_localStream]. now rewrite Hls.
Qed.

Lemma joinRoom_without_stream_is_noop_witness :
  joinRoom (mkEnv "test-room" None) init = init /\
  step accept accept init PressButton = init.
Proof.
  destruct (joinRoom_without_stream_is_noop accept accept
              (mkEnv "test-room" None) init eq_refl) as [H1 H2].
  split; [exact H1 | apply H2; reflexivity].
Defined.

(** C9.  With the handlers registered, a [joined] message whose count is a
    non-negative integer a JavaScript number holds exactly sets the status
    to "joined room (", the decimal numeral of the count, ")"; the numeral
    reads back as the count, and count 1 gives "joined room (1)". *)
Theorem joined_sets_status :
  forall (sdOk iceOk : string -> bool) (s : State) (env : Env) (count : N),
    socketRef s = Some env ->
    (count < 2 ^ 53)%N ->
    status (step sdOk iceOk s (Socket (Joined count)))
      = ("joined room (" ++ numberToString count ++ ")")%string /\
    option_map N.of_uint (NilZero.uint_of_string (numberToString count))
      = Some count /\
    status (step sdOk iceOk s (Socket (Joined 1))) = "joined room (1)".
Proof.
  intros sdOk iceOk s env count Hs _. cbn [step]. rewrite Hs.
  repeat split.
  unfold numberToString. rewrite NilZero.usu.
  - cbn [option_map]. now rewrite DecimalN.Unsigned.of_to.
  - rewrite <- (DecimalN.Unsigned.of_to count) at 1.
    rewrite DecimalN.Unsigned.to_of. apply DecimalFacts.unorm_nonnil.
Qed.

Lemma joined_sets_status_witness :
  status (step accept accept (run accept accept init
            [LocalStreamAcquired [1; 2]; PressButton]) (Socket (Joined 1)))
    = "joined room (1)".
Proof.
  refine (proj2 (proj2 (joined_sets_status accept accept
            (run accept accept init [LocalStreamAcquired [1; 2]; PressButton])
            (mkEnv "test-room" (Some [1; 2])) 1%N _ _))).
  - reflexivity.
  - reflexivity.
Defined.

(** [endCall] always ends in the Idle state and leaves the socket, the
    suspended handlers and the list of connections alone. *)
Lemma endCall_idle :
  forall (env : Env) (s : State),
    idle (endCall env s) /\
    socketRef (endCall env s) = socketRef s /\
    pending (endCall env s) = pending s /\
    pcs (endCall env s) = pcs s.
Proof.
  intros env s. unfold endCall, idle.
  destruct (socketRef s) eqn:Hs, (truthy (e_roomId env)), (pcRef s) eqn:Hpc;
    cbn; rewrite ?Hpc; cbn; auto 10.
Qed.

(** Without a connection [endCall] makes no engine call. *)
Lemma endCall_no_pc_calls :
  forall (env : Env) (s : State),
    pcRef s = None -> calls (endCall env s) = calls s.
Proof.
  intros env s Hpc. unfold endCall.
  destruct (socketRef s), (truthy (e_roomId env));
    cbn; rewrite ?Hpc; reflexivity.
Qed.

(** C5.  From every state, [endCall] followed at once by [endCall] ends in
    Idle: no peer-connection reference, no remote stream, status "idle",
    not joined.  The second call has nothing to release: it makes no engine
    call, so nothing in it can raise. *)
Theorem endCall_twice_idle :
  forall (env1 env2 : Env) (s : State),
    idle (endCall env2 (endCall env1 s)) /\
    calls (endCall env2 (endCall env1 s)) = calls (endCall env1 s).
Proof.
  intros env1 env2 s. split.
  - apply endCall_idle.
  - apply endCall_no_pc_calls. apply (endCall_idle env1 s).
Qed.

(** ** Who sends [leave] *)

(** What [endCall] emits. *)
Lemma endCall_sent :
  forall (env : Env) (s : State),
    sent (endCall env s) =
    match socketRef s with
    | Some _ =>
        if truthy (e_roomId env)
        then sent s ++ [EmitLeave (e_roomId env)]
        else sent s
    | None => sent s
    end.
Proof.
  intros env s. unfold endCall.
  destruct (socketRef s), (truthy (e_roomId env)), (pcRef s) eqn:Hpc;
    cbn; rewrite ?Hpc; reflexivity.
Qed.

(** C4, as the code has it.  Both teardowns run [endCall], and [endCall]
    emits [leave] whenever the room identifier of its closure is not empty:
    the teardown on [peer-left] emits it for the room the handlers were
    registered with, the teardown on the Leave button for the room of the
    current render.  Both drop the connection. *)
Theorem every_teardown_emits_leave :
  forall (sdOk iceOk : string -> bool) (s : State) (env : Env),
    socketRef s = Some env ->
    (sent (step sdOk iceOk s (Socket PeerLeft)) =
       (if truthy (e_roomId env)
        then sent s ++ [EmitLeave (e_roomId env)] else sent s) /\
     pcRef (step sdOk iceOk s (Socket PeerLeft)) = None) /\
    (joined s = true ->
     sent (step sdOk iceOk s PressButton) =
       (if truthy (roomId s)
        then sent s ++ [EmitLeave (roomId s)] else sent s) /\
     pcRef (step sdOk iceOk s PressButton) = None).
Proof.
  intros sdOk iceOk s env Hs. split.
  - cbn [step]. rewrite Hs. cbn [onSocket]. split.
    + rewrite endCall_sent. cbn. now rewrite Hs.
    + apply endCall_idle.
  - intros Hj. cbn [step]. rewrite Hj. split.
    + rewrite endCall_sent, Hs. reflexivity.
    + apply endCall_idle.
Qed.

Lemma every_teardown_emits_leave_witness :
  sent (step accept accept
          (run accept accept init [LocalStreamAcquired [1; 2]; PressButton])
          (Socket PeerLeft))
    = [EmitJoin "test-room"; EmitLeave "test-room"].
Proof.
  exact (proj1 (proj1 (every_teardown_emits_leave accept accept
           (run accept accept init [LocalStreamAcquired [1; 2]; PressButton])
           (mkEnv "test-room" (Some [1; 2])) eq_refl))).
Defined.

(** C4 as written does not hold: after a join, [peer-left] makes the
    component emit [leave]. *)
Lemma leave_only_when_local_fails : ~ leave_only_when_local.
Proof.
  intros H.
  destruct (H accept accept [LocalStreamAcquired [1; 2]; PressButton] eq_refl)
    as [_ H2].
  vm_compute in H2. discriminate.
Qed.

(** ** Suspended handlers *)

Lemma nth_error_snoc :
  forall (A : Type) (l : list A) (x : A),
    nth_error (l ++ [x]) (List.length l) = Some x.
Proof.
  intros A l x. induction l as [|a l IH]; [reflexivity | exact IH].
Qed.

Lemma removeAt_snoc :
  forall (A : Type) (l : list A) (x : A),
    removeAt (List.length l) (l ++ [x]) = l.
Proof.
  intros A l x. unfold removeAt. induction l as [|a l IH].
  - reflexivity.
  - cbn [List.length firstn app]. change (skipn (S (S (List.length l))) (a :: l ++ [x]))
      with (skipn (S (List.length l)) (l ++ [x])).
    cbn [app]. now rewrite IH.
Qed.

(** ** A candidate the engine refuses *)

(** C6.  With a peer connection in place (as it is once Connected), an
    [ice-candidate] message whose candidate the engine refuses, be it that
    the [RTCIceCandidate] constructor throws or that the promise of
    [addIceCandidate] is rejected, ends in the handler's [catch]: one
    warning is logged and nothing else changes.  The peer-connection
    reference, the status, the joined flag, the remote stream and the
    emitted messages are as before, and the only engine call, if any, is
    the refused [addIceCandidate]: the connection is not closed. *)
Theorem refused_candidate_is_swallowed :
  forall (sdOk iceOk : string -> bool) (s : State) (env : Env) (pc : PcId)
         (c : Candidate),
    socketRef s = Some env ->
    pcRef s = Some pc ->
    let s1 := step sdOk iceOk s (Socket (IceCandidate c)) in
    let s2 :=
      if iceOk c
      then step sdOk iceOk s1 (Settle (List.length (pending s)) Rejected)
      else s1 in
    observable s2 = observable s /\
    pcs s2 = pcs s /\
    pending s2 = pending s /\
    calls s2 = calls s ++ (if iceOk c then [AddIceCandidate pc c] else []) /\
    console s2 = console s ++ ["Failed to add ICE"].
Proof.
  intros sdOk iceOk s env pc c Hs Hpc. cbn zeta.
  cbn [step]. rewrite Hs. cbn [onSocket]. unfold ensurePeer. rewrite Hpc.
  destruct (iceOk c).
  - cbn [step pending await call setPending setCalls].
    rewrite nth_error_snoc, removeAt_snoc.
    cbn. auto 10.
  - cbn. rewrite List.app_nil_r. auto 10.
Qed.

Lemma refused_candidate_is_swallowed_witness :
  let s := run accept accept init connected_run in
  let s2 := run accept accept s
              [Socket (IceCandidate "garbage"); Settle 0 Rejected] in
  status s = "connected (answer set)" /\
  observable s2 = observable s /\
  calls s2 = calls s ++ [AddIceCandidate 0 "garbage"].
Proof.
  cbn zeta.
  assert (Hs : socketRef (run accept accept init connected_run)
               = Some (mkEnv "test-room" (Some [1; 2])))
    by (vm_compute; reflexivity).
  assert (Hpc : pcRef (run accept accept init connected_run) = Some 0)
    by (vm_compute; reflexivity).
  destruct (refused_candidate_is_swallowed accept accept _ _ _ "garbage"
              Hs Hpc) as (Ho & _ & _ & Hc & _).
  vm_compute in Ho, Hc. vm_compute.
  split; [reflexivity | split; [exact Ho | exact Hc]].
Defined.

(** ** Joining again *)

(** Once the socket exists its handlers are never registered again: the
    closure they run in is the one of the first join, whatever follows. *)
Lemma connectSocket_keeps_handlers :
  forall (env env' : Env) (s : State),
    socketRef s = Some env -> connectSocket env' s = s.
Proof.
  intros env env' s Hs. unfold connectSocket. now rewrite Hs.
Qed.

(** C8, on the code.  Join the default room, leave, type "r2" and join
    again: the [join] names "r2", but the handlers are those of the first
    join, so the offer that answers [ready] is emitted for "test-room". *)
Theorem rejoin_keeps_first_room :
  let s := run accept accept init rejoin_other_room in
  roomId s = "r2" /\
  socketRef s = Some (mkEnv "test-room" (Some [1; 2])) /\
  sent s = [ EmitJoin "test-room"; EmitLeave "test-room"; EmitJoin "r2";
             EmitOffer "test-room" "sdp-offer" ].
Proof.
  cbn zeta. vm_compute. auto.
Qed.

(** ** Case analysis on one reaction *)

(** Splits on the innermost scrutinee first, so that a handler is opened
    from its guards outward. *)
Ltac break_match :=
  match goal with
  | |- context [match ?x with _ => _ end] =>
      lazymatch x with
      | context [match _ with _ => _ end] => fail
      | _ => destruct x eqn:?
      end
  end.

Ltac unfold_component :=
  unfold step, onSocket, resume, ensurePeer, endCall, joinRoom,
    connectSocket, attachEffect, emit, await, call, callAll, warn, addTracks.

(** ** Candidates *)

Lemma iceCalls_app :
  forall l1 l2 : list EngineCall,
    iceCalls (l1 ++ l2) = iceCalls l1 ++ iceCalls l2.
Proof. intros. apply filter_app. Qed.

Lemma iceCalls_TrackStop :
  forall ts : list Track, iceCalls (map TrackStop ts) = [].
Proof. induction ts; auto. Qed.

Lemma iceCalls_AddTrack :
  forall (pc : PcId) (ts : list Track), iceCalls (map (AddTrack pc) ts) = [].
Proof. induction ts; auto. Qed.

(** Only the [ice-candidate] handler hands a candidate to the engine. *)
Lemma step_keeps_iceCalls :
  forall (sdOk iceOk : string -> bool) (s : State) (e : Event),
    isIceEv e = false ->
    iceCalls (calls (step sdOk iceOk s e)) = iceCalls (calls s).
Proof.
  intros sdOk iceOk s e He.
  destruct e as [st|r| |m|i o|pc c|pc streams];
    try destruct m; try discriminate He;
    unfold_component;
    repeat (cbn -[iceCalls]; try break_match);
    rewrite ?iceCalls_app, ?iceCalls_TrackStop, ?iceCalls_AddTrack,
      ?List.app_nil_r;
    reflexivity.
Qed.

Lemma run_keeps_iceCalls :
  forall (sdOk iceOk : string -> bool) (tr : list Event) (s : State),
    forallb (fun e => negb (isIceEv e)) tr = true ->
    iceCalls (calls (run sdOk iceOk s tr)) = iceCalls (calls s).
Proof.
  intros sdOk iceOk tr. induction tr as [|e tr IH]; intros s Htr.
  - reflexivity.
  - cbn [forallb] in Htr. apply andb_prop in Htr as [He Htr].
    apply negb_true_iff in He.
    cbn [run fold_left]. change (fold_left (step sdOk iceOk) tr ?x)
      with (run sdOk iceOk x tr).
    rewrite (IH _ Htr). now apply step_keeps_iceCalls.
Qed.

(** The call log of the run in which a candidate precedes the offer. *)
Example early_candidate_calls :
  calls (run accept accept init early_candidate_run) =
  [ NewPC 0; AddTrack 0 1; AddTrack 0 2; AddIceCandidate 0 "cand-1";
    SetRemoteDescription 0 "sdp-offer"; CreateAnswer 0 ].
Proof. vm_compute. reflexivity. Qed.

(** C1 as written does not hold: in [early_candidate_run] the candidate
    reaches the engine on arrival, before any remote description, and the
    calls that follow [setRemoteDescription] do not contain it. *)
Lemma candidates_buffered_until_remote_fails :
  ~ candidates_buffered_until_remote.
Proof.
  intros H.
  specialize (H accept accept
    [LocalStreamAcquired [1; 2]; PressButton]
    [Settle 0 Rejected; Socket (Offer "sdp-offer"); Settle 0 (Fulfilled "")]
    "cand-1" 0).
  cbn zeta in H.
  assert (H1 : socketRef (run accept accept init
                 [LocalStreamAcquired [1; 2]; PressButton]) <> None)
    by (vm_compute; discriminate).
  specialize (H H1). clear H1.
  vm_compute in H.
  destruct (H eq_refl eq_refl eq_refl eq_refl) as [_ H2]. discriminate H2.
Qed.

(** C1, as the code has it.  An [ice-candidate] message whose candidate the
    constructor accepts is handed to [addIceCandidate] at once, on the
    current connection, which [ensurePeer] constructs if there is none;
    whether a remote description has been applied plays no part.  The
    handler keeps nothing but its own suspension, and as long as no further
    [ice-candidate] message arrives no event hands a candidate to the
    engine again: every candidate is tried once, on arrival. *)
Theorem candidate_applied_on_arrival :
  forall (sdOk iceOk : string -> bool) (s : State) (env : Env)
         (c : Candidate),
    socketRef s = Some env ->
    iceOk c = true ->
    let s0 := fst (ensurePeer env s) in
    let pc := snd (ensurePeer env s) in
    let s1 := step sdOk iceOk s (Socket (IceCandidate c)) in
    pcRef s1 = Some pc /\
    calls s1 = calls s0 ++ [AddIceCandidate pc c] /\
    pending s1 = pending s ++ [IceAdded] /\
    (forall tr : list Event,
        forallb (fun e => negb (isIceEv e)) tr = true ->
        iceCalls (calls (run sdOk iceOk s1 tr)) = iceCalls (calls s1)).
Proof.
  intros sdOk iceOk s env c Hs Hok. cbn zeta.
  split; [|split; [|split]].
  - cbn [step]. rewrite Hs. cbn [onSocket]. rewrite Hok.
    unfold ensurePeer. destruct (pcRef s) eqn:Hpc; cbn; now rewrite ?Hpc.
  - cbn [step]. rewrite Hs. cbn [onSocket]. rewrite Hok.
    destruct (ensurePeer env s) as [s0 pc]. reflexivity.
  - cbn [step]. rewrite Hs. cbn [onSocket]. rewrite Hok.
    unfold ensurePeer. destruct (pcRef s); reflexivity.
  - intros tr Htr. now apply run_keeps_iceCalls.
Qed.

Lemma candidate_applied_on_arrival_witness :
  calls (step accept accept
           (run accept accept init [LocalStreamAcquired [1; 2]; PressButton])
           (Socket (IceCandidate "cand-1")))
  = [NewPC 0; AddTrack 0 1; AddTrack 0 2; AddIceCandidate 0 "cand-1"].
Proof.
  assert (Hs : socketRef (run accept accept init
                 [LocalStreamAcquired [1; 2]; PressButton])
               = Some (mkEnv "test-room" (Some [1; 2])))
    by (vm_compute; reflexivity).
  destruct (candidate_applied_on_arrival accept accept _ _ "cand-1"
              Hs eq_refl) as (_ & Hc & _).
  vm_compute in Hc. vm_compute. exact Hc.
Defined.

(** ** Results that arrive after a teardown *)

(** The state in which the superseded offer is still being set as local
    description, after a leave and a second join. *)
Example offer_in_flight_after_rejoin :
  let s := run accept accept init
             (offer_in_flight_run ++ [PressButton; PressButton]) in
  pending s = [ReadyLocalSet (mkEnv "test-room" (Some [1; 2])) 0 "sdp-offer"]
  /\ observable s =
     (true, "idle", None, None,
      [EmitJoin "test-room"; EmitLeave "test-room"; EmitJoin "test-room"])
  /\ observable (step accept accept s (Settle 0 (Fulfilled ""))) =
     (true, "sent offer", None, None,
      [EmitJoin "test-room"; EmitLeave "test-room"; EmitJoin "test-room";
       EmitOffer "test-room" "sdp-offer"]).
Proof. vm_compute. auto. Qed.

(** C2 as written does not hold: the handler of [ready] suspended before
    the leave resumes after the second join, emits its offer and sets the
    status to "sent offer". *)
Lemma stale_results_are_inert_fails : ~ stale_results_are_inert.
Proof.
  intros H.
  specialize (H accept accept offer_in_flight_run 0 (Fulfilled "")).
  cbn zeta in H.
  assert (H1 : joined (run accept accept init offer_in_flight_run) = true)
    by (vm_compute; reflexivity).
  assert (H2 : 0 < List.length
                 (pending (run accept accept init offer_in_flight_run)))
    by (vm_compute; lia).
  specialize (H H1 H2). vm_compute in H. discriminate H.
Qed.

(** C2, as the code has it.  The settling of an awaited promise resumes
    its handler in whatever state the component is by then; nothing marks
    the handler as belonging to an earlier attempt.  What the resumed
    handler cannot do: it does not touch the peer-connection reference,
    the joined flag, the remote stream, the socket, the list of
    connections, the room or the local stream, and each engine call it
    makes is made on the connection held in its own [pc].  Its status
    update and its [emit] are not held back. *)
Theorem late_result_keeps_to_its_connection :
  forall (sdOk iceOk : string -> bool) (s : State) (i : nat) (o : Outcome)
         (k : Cont),
    nth_error (pending s) i = Some k ->
    let s' := step sdOk iceOk s (Settle i o) in
    pcRef s' = pcRef s /\ joined s' = joined s /\
    remoteStream s' = remoteStream s /\ socketRef s' = socketRef s /\
    pcs s' = pcs s /\ roomId s' = roomId s /\
    localStream s' = localStream s /\
    exists new : list EngineCall,
      calls s' = calls s ++ new /\
      forall c : EngineCall, In c new -> target c = contPc k.
Proof.
  intros sdOk iceOk s i o k Hk. cbn zeta. cbn [step]. rewrite Hk.
  destruct k, o; unfold resume, emit, await, call, warn;
    repeat (cbn; try break_match);
    repeat (split; [first [reflexivity | assumption]|]);
    first
      [ exists []; split;
        [ now rewrite List.app_nil_r | intros c [] ]
      | eexists; split;
        [ reflexivity | intros c [<-|[]]; reflexivity ] ].
Qed.

Lemma late_result_keeps_to_its_connection_witness :
  let s := run accept accept init
             (offer_in_flight_run ++ [PressButton; PressButton]) in
  pcRef (step accept accept s (Settle 0 (Fulfilled ""))) = pcRef s.
Proof.
  cbn zeta.
  assert (Hk : nth_error
                 (pending (run accept accept init
                    (offer_in_flight_run ++ [PressButton; PressButton]))) 0
               = Some (ReadyLocalSet (mkEnv "test-room" (Some [1; 2])) 0
                         "sdp-offer"))
    by (vm_compute; reflexivity).
  exact (proj1 (late_result_keeps_to_its_connection accept accept _ 0
                  (Fulfilled "") _ Hk)).
Defined.

(** ** Offers and answers *)

Lemma count_app :
  forall (A : Type) (f : A -> bool) (l1 l2 : list A),
    List.length (filter f (l1 ++ l2))
    = List.length (filter f l1) + List.length (filter f l2).
Proof. intros. now rewrite filter_app, length_app. Qed.

(** Taking a suspended handler out of the list takes its weight out of
    the count. *)
Lemma count_removeAt :
  forall (A : Type) (f : A -> bool) (l : list A) (i : nat) (x : A),
    nth_error l i = Some x ->
    List.length (filter f (removeAt i l)) + (if f x then 1 else 0)
    = List.length (filter f l).
Proof.
  intros A f l. unfold removeAt.
  induction l as [|a l IH]; intros i x Hx.
  - destruct i; discriminate.
  - destruct i as [|i].
    + injection Hx as ->. cbn. destruct (f x); cbn; lia.
    + cbn [nth_error] in Hx. specialize (IH i x Hx).
      change (firstn (S i) (a :: l) ++ skipn (S (S i)) (a :: l))
        with (a :: (firstn i l ++ skipn (S i) l)).
      cbn [filter]. destruct (f a); cbn [List.length]; lia.
Qed.

Ltac count_norm :=
  unfold offersDue, answersDue, countOffers, countAnswers;
  repeat (cbn -[filter List.length removeAt Nat.add]; try break_match);
  rewrite ?count_app; cbn [filter List.length isOffer isAnswer isReadyCont
                           isOfferCont].

Lemma step_offersDue :
  forall (sdOk iceOk : string -> bool) (s : State) (e : Event),
    offersDue (step sdOk iceOk s e)
    <= offersDue s + (if isReadyEv e then 1 else 0) /\
    answersDue (step sdOk iceOk s e)
    <= answersDue s + (if isOfferEv e then 1 else 0).
Proof.
  intros sdOk iceOk s e.
  destruct e as [st|r| |m|i o|pc c|pc streams].
  - unfold_component; count_norm; lia.
  - unfold_component; count_norm; lia.
  - unfold_component; count_norm; lia.
  - destruct m; unfold_component; count_norm; lia.
  - cbn [step]. destruct (nth_error (pending s) i) as [k|] eqn:Hk.
    + pose proof (count_removeAt _ isReadyCont _ _ _ Hk) as Hr.
      pose proof (count_removeAt _ isOfferCont _ _ _ Hk) as Ho.
      destruct k, o; cbn [isReadyCont isOfferCont] in Hr, Ho;
        unfold_component; count_norm; lia.
    + cbn. lia.
  - unfold_component; count_norm; lia.
  - unfold_component; count_norm; lia.
Qed.

Lemma run_offersDue :
  forall (sdOk iceOk : string -> bool) (tr : list Event) (s : State),
    offersDue (run sdOk iceOk s tr)
    <= offersDue s + List.length (filter isReadyEv tr) /\
    answersDue (run sdOk iceOk s tr)
    <= answersDue s + List.length (filter isOfferEv tr).
Proof.
  intros sdOk iceOk tr. induction tr as [|e tr IH]; intros s.
  - cbn. lia.
  - cbn [run fold_left]. change (fold_left (step sdOk iceOk) tr ?x)
      with (run sdOk iceOk x tr).
    destruct (IH (step sdOk iceOk s e)) as [IH1 IH2].
    destruct (step_offersDue sdOk iceOk s e) as [H1 H2].
    cbn [filter].
    destruct (isReadyEv e), (isOfferEv e); cbn [List.length]; lia.
Qed.

(** C3 as written does not hold: [ready] delivered twice after one join,
    with no teardown in between, yields two offers. *)
Lemma one_offer_one_answer_per_attempt_fails :
  ~ one_offer_one_answer_per_attempt.
Proof.
  intros H.
  specialize (H accept accept [1; 2] ready_twice eq_refl).
  vm_compute in H. destruct H as [H _]. lia.
Qed.

(** C3, as the code has it.  The [ready] handler has no guard: each
    delivery of [ready] leads to at most one offer, each delivery of
    [offer] to at most one answer, and nothing limits the deliveries within
    an attempt.  In every execution the offers emitted are at most as many
    as the [ready] messages delivered, and the answers at most as many as
    the [offer] messages delivered. *)
Theorem offers_bounded_by_deliveries :
  forall (sdOk iceOk : string -> bool) (tr : list Event),
    countOffers (sent (run sdOk iceOk init tr))
    <= List.length (filter isReadyEv tr) /\
    countAnswers (sent (run sdOk iceOk init tr))
    <= List.length (filter isOfferEv tr).
Proof.
  intros sdOk iceOk tr.
  destruct (run_offersDue sdOk iceOk tr init) as [H1 H2].
  unfold offersDue, answersDue in H1, H2. cbn in H1, H2. lia.
Qed.

(** ** One connection at a time *)

Lemma Tracked_init : Tracked 0 None [].
Proof.
  split.
  - intros pc [].
  - discriminate.
  - intros pc H. lia.
Qed.

(** Calls that construct nothing keep the bookkeeping. *)
Lemma Tracked_app :
  forall (n : nat) (r : option PcId) (cs new : list EngineCall),
    Forall (fun c => isNewPC c = false) new ->
    Tracked n r cs -> Tracked n r (cs ++ new).
Proof.
  intros n r cs new Hnew [H1 H2 H3]. split.
  - intros pc Hin. apply in_app_or in Hin as [Hin|Hin]; [auto|].
    rewrite Forall_forall in Hnew. apply Hnew in Hin. discriminate.
  - exact H2.
  - intros pc Hlt Hr. apply in_or_app. left. auto.
Qed.

(** Constructing a connection while the reference is empty. *)
Lemma Tracked_new :
  forall (n : nat) (cs : list EngineCall),
    Tracked n None cs -> Tracked (S n) (Some n) (cs ++ [NewPC n]).
Proof.
  intros n cs [H1 H2 H3]. split.
  - intros pc Hin. apply in_app_or in Hin as [Hin|[Hin|[]]].
    + apply H1 in Hin. lia.
    + injection Hin as <-. lia.
  - intros pc Hpc. injection Hpc as <-. lia.
  - intros pc Hlt Hr. apply in_or_app. left. apply H3.
    + assert (pc <> n) by congruence. lia.
    + discriminate.
Qed.

(** Closing the referenced connection and emptying the reference. *)
Lemma Tracked_close :
  forall (n : nat) (pc : PcId) (cs : list EngineCall),
    Tracked n (Some pc) cs -> Tracked n None (cs ++ [Close pc]).
Proof.
  intros n pc cs [H1 H2 H3]. split.
  - intros pc' Hin. apply in_app_or in Hin as [Hin|[Hin|[]]];
      [auto | discriminate].
  - discriminate.
  - intros pc' Hlt _. apply in_or_app.
    destruct (Nat.eq_dec pc' pc) as [->|Hne].
    + right. now left.
    + left. apply H3; congruence.
Qed.

Lemma Forall_map_TrackStop :
  forall ts : list Track,
    Forall (fun c => isNewPC c = false) (map TrackStop ts).
Proof. induction ts; constructor; auto. Qed.

Lemma Forall_map_AddTrack :
  forall (pc : PcId) (ts : list Track),
    Forall (fun c => isNewPC c = false) (map (AddTrack pc) ts).
Proof. induction ts; constructor; auto. Qed.

Ltac tracked_side :=
  solve [ apply Forall_map_TrackStop
        | apply Forall_map_AddTrack
        | repeat constructor ].

Ltac tracked_steps :=
  repeat first
    [ assumption
    | apply Tracked_close
    | apply Tracked_new
    | apply Tracked_app; [tracked_side|] ].

Lemma length_snoc :
  forall (A : Type) (l : list A) (x : A),
    List.length (l ++ [x]) = S (List.length l).
Proof. intros. rewrite length_app. cbn. lia. Qed.

(** Every reaction keeps the bookkeeping. *)
Lemma step_tracked :
  forall (sdOk iceOk : string -> bool) (s : State) (e : Event),
    tracked s -> tracked (step sdOk iceOk s e).
Proof.
  intros sdOk iceOk s e. unfold tracked.
  destruct e as [st|r| |m|i o|pc c|pc streams];
    [ | | | destruct m
      | cbn [step]; destruct (nth_error (pending s) i) as [k|];
        [destruct k, o|] | | ];
    unfold_component;
    repeat (cbn -[List.length]; try break_match);
    rewrite ?length_snoc;
    intros H;
    try match goal with E : pcRef s = _ |- _ => rewrite E end;
    tracked_steps.
Qed.

Lemma run_tracked :
  forall (sdOk iceOk : string -> bool) (tr : list Event) (s : State),
    tracked s -> tracked (run sdOk iceOk s tr).
Proof.
  intros sdOk iceOk tr. induction tr as [|e tr IH]; intros s Hs.
  - exact Hs.
  - cbn [run fold_left]. apply IH. now apply step_tracked.
Qed.

(** C7.  In every reachable state, [ensurePeer] called while a connection
    is referenced returns that connection and changes nothing, so calling
    it twice is calling it once; and a connection that was constructed and
    not closed is the referenced one, so there is never a second open
    connection. *)
Theorem ensurePeer_idempotent_one_open_connection :
  forall (sdOk iceOk : string -> bool) (tr : list Event),
    let s := run sdOk iceOk init tr in
    (forall (env : Env) (pc : PcId),
        pcRef s = Some pc -> ensurePeer env s = (s, pc)) /\
    (forall env env' : Env,
        ensurePeer env' (fst (ensurePeer env s)) = ensurePeer env s) /\
    (forall pc : PcId, open pc (calls s) -> pcRef s = Some pc).
Proof.
  intros sdOk iceOk tr s. split; [|split].
  - intros env pc Hpc. unfold ensurePeer. now rewrite Hpc.
  - intros env env'. unfold ensurePeer at 2 3.
    destruct (pcRef s) eqn:Hpc.
    + cbn [fst]. unfold ensurePeer. now rewrite Hpc.
    + cbn [fst]. unfold ensurePeer. reflexivity.
  - intros pc [Hnew Hopen].
    assert (Ht : tracked s) by (apply run_tracked; exact Tracked_init).
    destruct Ht as [H1 H2 H3].
    destruct (pcRef s) as [pc'|] eqn:Hpc.
    + destruct (Nat.eq_dec pc' pc) as [->|Hne]; [reflexivity|].
      exfalso. apply Hopen. apply H3; [auto | congruence].
    + exfalso. apply Hopen. apply H3; [auto | discriminate].
Qed.

(** ** The handlers outlive a leave *)

(** No reaction replaces the socket or the closure of its handlers. *)
Lemma step_keeps_socket :
  forall (sdOk iceOk : string -> bool) (s : State) (e : Event) (env : Env),
    socketRef s = Some env -> socketRef (step sdOk iceOk s e) = Some env.
Proof.
  intros sdOk iceOk s e env Hs.
  destruct e as [st|r| |m|i o|pc c|pc streams];
    [ | | | destruct m
      | cbn [step]; destruct (nth_error (pending s) i) as [k|];
        [destruct k, o|] | | ];
    unfold_component;
    repeat (cbn; rewrite ?Hs; try break_match);
    congruence.
Qed.

Lemma run_keeps_socket :
  forall (sdOk iceOk : string -> bool) (tr : list Event) (s : State)
         (env : Env),
    socketRef s = Some env -> socketRef (run sdOk iceOk s tr) = Some env.
Proof.
  intros sdOk iceOk tr. induction tr as [|e tr IH]; intros s env Hs.
  - exact Hs.
  - cbn [run fold_left]. apply IH. now apply step_keeps_socket.
Qed.

(** A candidate of the earlier attempt that is delivered after a leave and
    a second join is handled like any other: a connection is constructed
    for it. *)
Example stale_candidate_after_rejoin :
  let s := run accept accept init
             [ LocalStreamAcquired [1; 2]; PressButton; Socket Ready;
               PressButton; PressButton ] in
  pcRef s = None /\
  pcRef (step accept accept s (Socket (IceCandidate "cand-old"))) = Some 1.
Proof. vm_compute. auto. Qed.

(** * Further properties of the component *)

(** ** Permissions and capture *)

Lemma isGranted_true :
  forall (GRANTED : string) (granted : Grants) (key : string),
    isGranted GRANTED granted key = true <-> granted key = Some GRANTED.
Proof.
  intros GRANTED granted key. unfold isGranted.
  destruct (granted key) as [v|].
  - rewrite String.eqb_eq. split; congruence.
  - split; discriminate.
Qed.

(** [requestPermissions] answers true in exactly two situations: the
    platform is not Android, in which case nothing is requested, or the
    request resolves with both the camera and the microphone permission
    equal to [GRANTED].  A missing key, any other value, or a request that
    throws gives false. *)
Theorem requestPermissions_true_iff :
  forall (os GRANTED : string) (req : Promise Grants),
    fst (requestPermissions os GRANTED req) = true <->
    (os <> "android" \/
     exists granted : Grants,
       req = Resolves granted /\
       granted "android.permission.CAMERA" = Some GRANTED /\
       granted "android.permission.RECORD_AUDIO" = Some GRANTED).
Proof.
  intros os GRANTED req. unfold requestPermissions.
  destruct (String.eqb os "android") eqn:Hos.
  - apply String.eqb_eq in Hos. destruct req as [granted|].
    + destruct (isGranted GRANTED granted "android.permission.CAMERA")
        eqn:Hc;
      destruct (isGranted GRANTED granted "android.permission.RECORD_AUDIO")
        eqn:Hm; cbn.
      * apply isGranted_true in Hc, Hm. split; [|reflexivity].
        intros _. right. exists granted. auto.
      * split; [discriminate|]. intros [H|(g & Hg & _ & Hg2)];
          [contradiction|]. injection Hg as <-.
        apply isGranted_true in Hg2. congruence.
      * split; [discriminate|]. intros [H|(g & Hg & Hg1 & _)];
          [contradiction|]. injection Hg as <-.
        apply isGranted_true in Hg1. congruence.
      * split; [discriminate|]. intros [H|(g & Hg & Hg1 & _)];
          [contradiction|]. injection Hg as <-.
        apply isGranted_true in Hg1. congruence.
    + cbn. split; [discriminate|].
      intros [H|(g & Hg & _)]; [contradiction | discriminate].
  - apply String.eqb_neq in Hos. cbn. split; auto.
Qed.

(** A granted request writes nothing to the console. *)
Lemma requestPermissions_ok_silent :
  forall (os GRANTED : string) (req : Promise Grants),
    fst (requestPermissions os GRANTED req) = true ->
    requestPermissions os GRANTED req = (true, []).
Proof.
  intros os GRANTED req. unfold requestPermissions.
  destruct (String.eqb os "android"); [|reflexivity].
  destruct req as [granted|]; [|discriminate].
  destruct (negb _ || negb _); [discriminate | reflexivity].
Qed.

(** When capture succeeds [getLocalStream] is the acquisition event. *)
Lemma getLocalStream_acquires :
  forall (sdOk iceOk : string -> bool) (os GRANTED : string)
         (req : Promise Grants) (stream : MediaStream) (s : State),
    fst (requestPermissions os GRANTED req) = true ->
    getLocalStream os GRANTED req (Resolves stream) s
    = step sdOk iceOk s (LocalStreamAcquired stream).
Proof.
  intros sdOk iceOk os GRANTED req stream s Hok.
  unfold getLocalStream.
  rewrite (requestPermissions_ok_silent _ _ _ Hok).
  cbn [step]. rewrite List.app_nil_r. destruct s. reflexivity.
Qed.

(** Until a stream is acquired no reaction does anything but edit the
    room field. *)
Lemma step_quiet :
  forall (sdOk iceOk : string -> bool) (s : State) (e : Event),
    isAcquire e = false -> quiet s -> quiet (step sdOk iceOk s e).
Proof.
  intros sdOk iceOk s e He (H1 & H2 & H3 & H4 & H5 & H6 & H7 & H8).
  destruct s; cbn in H1, H2, H3, H4, H5, H6, H7, H8; subst.
  destruct e as [st|r| |m|i o|pc c|pc streams]; try discriminate He;
    unfold quiet; cbn.
  - auto 10.
  - auto 10.
  - auto 10.
  - destruct i; cbn; auto 10.
  - destruct pc; cbn; auto 10.
  - destruct pc; cbn; auto 10.
Qed.

Lemma run_quiet :
  forall (sdOk iceOk : string -> bool) (tr : list Event) (s : State),
    forallb (fun e => negb (isAcquire e)) tr = true ->
    quiet s -> quiet (run sdOk iceOk s tr).
Proof.
  intros sdOk iceOk tr. induction tr as [|e tr IH]; intros s Htr Hs.
  - exact Hs.
  - cbn [forallb] in Htr. apply andb_prop in Htr as [He Htr].
    apply negb_true_iff in He.
    cbn [run fold_left]. apply IH; [exact Htr|].
    now apply step_quiet.
Qed.

(** If the permissions are refused or [getUserMedia] rejects, the stream
    is never stored, and from then on nothing the user or the relay does
    has any effect: no socket is opened, no connection constructed, nothing
    emitted, the component never becomes joined. *)
Theorem failed_capture_keeps_quiet :
  forall (sdOk iceOk : string -> bool) (os GRANTED : string)
         (req : Promise Grants) (media : Promise MediaStream)
         (tr : list Event),
    fst (requestPermissions os GRANTED req) = false \/ media = Rejects ->
    forallb (fun e => negb (isAcquire e)) tr = true ->
    quiet (run sdOk iceOk (getLocalStream os GRANTED req media init) tr).
Proof.
  intros sdOk iceOk os GRANTED req media tr Hfail Htr.
  apply run_quiet; [exact Htr|].
  unfold getLocalStream.
  destruct (requestPermissions os GRANTED req) as [ok lines].
  cbn [fst] in Hfail.
  destruct ok.
  - destruct Hfail as [Hf | ->]; [discriminate|].
    unfold quiet. cbn. auto 10.
  - unfold quiet. cbn. auto 10.
Qed.

Lemma failed_capture_keeps_quiet_witness :
  quiet (run accept accept
           (getLocalStream "android" "granted"
              (Resolves (fun key =>
                 if String.eqb key "android.permission.CAMERA"
                 then Some "granted" else Some "denied"))
              (Resolves [1; 2]) init)
           [PressButton; ChangeRoomId "r2"; PressButton; Socket Ready]).
Proof.
  apply failed_capture_keeps_quiet.
  - left. vm_compute. reflexivity.
  - vm_compute. reflexivity.
Defined.

(** ** What the handlers are bound to *)

Lemma Forall_removeAt :
  forall (A : Type) (P : A -> Prop) (l : list A) (i : nat),
    Forall P l -> Forall P (removeAt i l).
Proof.
  intros A P l i H. revert i. unfold removeAt.
  induction H as [|a l Ha Hl IH]; intros i.
  - destruct i; constructor.
  - destruct i as [|i].
    + exact Hl.
    + change (Forall P (a :: (firstn i l ++ skipn (S i) l))).
      constructor; [exact Ha | apply IH].
Qed.

Lemma Forall_nth_error :
  forall (A : Type) (P : A -> Prop) (l : list A) (i : nat) (x : A),
    Forall P l -> nth_error l i = Some x -> P x.
Proof.
  intros A P l i x H Hx. rewrite Forall_forall in H.
  apply H. eapply nth_error_In; eauto.
Qed.

Ltac bound_fields :=
  split; cbn;
  rewrite ?Forall_app;
  repeat match goal with
         | |- _ /\ _ => split
         | |- Forall _ (removeAt _ _) => apply Forall_removeAt
         | |- Forall _ [_] => constructor; [|constructor]
         | |- Forall _ [] => constructor
         end;
  try assumption; try discriminate;
  try (cbn; intros; congruence).

Lemma step_bound :
  forall (sdOk iceOk : string -> bool) (s : State) (e : Event) (env : Env),
    socketRef s = Some env -> Bound env s ->
    Bound env (step sdOk iceOk s e).
Proof.
  intros sdOk iceOk s e env Hs [B1 B2 B3 B4 B5].
  destruct e as [st|r| |m|i o|pc c|pc streams].
  - unfold_component; repeat (cbn; rewrite ?Hs; try break_match);
      bound_fields.
  - unfold_component; repeat (cbn; rewrite ?Hs; try break_match);
      bound_fields.
  - unfold_component; repeat (cbn; rewrite ?Hs; try break_match);
      bound_fields.
  - cbn [step]. rewrite Hs.
    destruct m; unfold_component;
      repeat (cbn; rewrite ?Hs; try break_match); bound_fields.
  - cbn [step]. destruct (nth_error (pending s) i) as [k|] eqn:Hk.
    + pose proof (Forall_nth_error _ _ _ _ _ B4 Hk) as He. cbn beta in He.
      destruct k, o; cbn [contEnv] in He;
        try (specialize (He _ eq_refl); subst env0);
        unfold_component; repeat (cbn; rewrite ?Hs; try break_match);
        bound_fields.
    + split; assumption.
  - cbn [step]. destruct (nth_error (pcs s) pc) as [env'|] eqn:Hpc.
    + pose proof (Forall_nth_error _ _ _ _ _ B3 Hpc) as He. subst env'.
      destruct c; unfold_component;
        repeat (cbn; rewrite ?Hs; try break_match); bound_fields.
    + split; assumption.
  - unfold_component; repeat (cbn; rewrite ?Hs; try break_match);
      bound_fields.
Qed.

Lemma step_wired :
  forall (sdOk iceOk : string -> bool) (s : State) (e : Event),
    wired s -> wired (step sdOk iceOk s e).
Proof.
  intros sdOk iceOk s e. unfold wired at 1.
  destruct (socketRef s) as [env|] eqn:Hs.
  - intros HB. unfold wired.
    rewrite (step_keeps_socket sdOk iceOk s e env Hs).
    now apply step_bound.
  - intros (H1 & H2 & H3 & H4 & H5).
    destruct s; cbn in Hs, H1, H2, H3, H4, H5; subst.
    destruct e as [st|r| |m|i o|pc c|pc streams]; unfold wired; cbn.
    + auto.
    + auto.
    + unfold joinRoom, render. cbn.
      destruct localStream0 as [ts|]; cbn; [|auto].
      split; cbn; try discriminate; repeat constructor; discriminate.
    + auto.
    + destruct i; cbn; auto.
    + destruct pc; cbn; auto.
    + destruct pc; cbn; auto.
Qed.

Lemma run_wired :
  forall (sdOk iceOk : string -> bool) (tr : list Event) (s : State),
    wired s -> wired (run sdOk iceOk s tr).
Proof.
  intros sdOk iceOk tr. induction tr as [|e tr IH]; intros s Hs.
  - exact Hs.
  - cbn [run fold_left]. apply IH. now apply step_wired.
Qed.

Lemma wired_init : wired init.
Proof. unfold wired. cbn. auto. Qed.

(** In every reachable state in which the component is joined (the button
    reads Leave) the socket exists, the closure of its handlers holds a
    local stream, and the component still holds one: a joined component
    can always reach the relay, and the connections its handlers construct
    have tracks to attach. *)
Theorem joined_has_socket_and_stream :
  forall (sdOk iceOk : string -> bool) (tr : list Event),
    let s := run sdOk iceOk init tr in
    joined s = true ->
    exists env : Env,
      socketRef s = Some env /\ e_localStream env <> None /\
      localStream s <> None.
Proof.
  intros sdOk iceOk tr s Hj.
  pose proof (run_wired sdOk iceOk tr init wired_init) as Hw.
  fold s in Hw. unfold wired in Hw.
  destruct (socketRef s) as [env|].
  - exists env. destruct Hw. auto.
  - destruct Hw as [Hf _]. congruence.
Qed.

Lemma joined_has_socket_and_stream_witness :
  exists env : Env,
    socketRef (run accept accept init connected_run) = Some env /\
    e_localStream env <> None /\
    localStream (run accept accept init connected_run) <> None.
Proof.
  apply (joined_has_socket_and_stream accept accept connected_run).
  vm_compute. reflexivity.
Defined.

(** In every reachable state, every offer, answer and candidate that was
    emitted names the room of the render that registered the socket's
    handlers, that is the room of the first join, whatever room the
    component has been switched to since. *)
Theorem negotiation_names_first_room :
  forall (sdOk iceOk : string -> bool) (tr : list Event) (env : Env)
         (m : OutMsg) (r : string),
    socketRef (run sdOk iceOk init tr) = Some env ->
    In m (sent (run sdOk iceOk init tr)) ->
    negotiationRoom m = Some r ->
    r = e_roomId env.
Proof.
  intros sdOk iceOk tr env m r Hs Hin Hr.
  pose proof (run_wired sdOk iceOk tr init wired_init) as Hw.
  unfold wired in Hw. rewrite Hs in Hw.
  destruct Hw as [_ _ _ _ B5]. rewrite Forall_forall in B5.
  exact (B5 m Hin r Hr).
Qed.

Lemma negotiation_names_first_room_witness :
  "test-room" = e_roomId (mkEnv "test-room" (Some [1; 2])).
Proof.
  apply (negotiation_names_first_room accept accept rejoin_other_room
           (mkEnv "test-room" (Some [1; 2]))
           (EmitOffer "test-room" "sdp-offer") "test-room").
  - vm_compute. reflexivity.
  - vm_compute. auto.
  - reflexivity.
Defined.

(** ** Tracks of a connection *)

Lemma Attached_app :
  forall (ps : list Env) (cs new : list EngineCall),
    Attached ps cs -> Attached ps (cs ++ new).
Proof.
  intros ps cs new H pc env ts t H1 H2 H3.
  apply in_or_app. left. eauto.
Qed.

Lemma Attached_new :
  forall (ps : list Env) (cs : list EngineCall) (env : Env),
    Attached ps cs ->
    Attached (ps ++ [env])
      ((cs ++ [NewPC (List.length ps)])
         ++ addTracks (List.length ps) (e_localStream env)).
Proof.
  intros ps cs env H pc env' ts t H1 H2 H3.
  destruct (Nat.lt_ge_cases pc (List.length ps)) as [Hlt|Hge].
  - rewrite nth_error_app1 in H1 by exact Hlt.
    apply in_or_app. left. apply in_or_app. left. eauto.
  - rewrite nth_error_app2 in H1 by exact Hge.
    destruct (pc - List.length ps) as [|d] eqn:Hd.
    + cbn in H1. injection H1 as <-.
      assert (pc = List.length ps) by lia. subst pc.
      apply in_or_app. right. rewrite H2. cbn. now apply in_map.
    + cbn in H1. destruct d; discriminate.
Qed.

Ltac attached_steps :=
  repeat first
    [ assumption
    | apply Attached_new
    | apply Attached_app ].

Lemma step_attached :
  forall (sdOk iceOk : string -> bool) (s : State) (e : Event),
    Attached (pcs s) (calls s) ->
    Attached (pcs (step sdOk iceOk s e)) (calls (step sdOk iceOk s e)).
Proof.
  intros sdOk iceOk s e.
  destruct e as [st|r| |m|i o|pc c|pc streams];
    [ | | | destruct m
      | cbn [step]; destruct (nth_error (pending s) i) as [k|];
        [destruct k, o|] | | ];
    unfold step, onSocket, resume, ensurePeer, endCall, joinRoom,
      connectSocket, attachEffect, emit, await, call, callAll, warn;
    repeat (cbn -[addTracks]; try break_match);
    intros H; attached_steps.
Qed.

Lemma run_attached :
  forall (sdOk iceOk : string -> bool) (tr : list Event) (s : State),
    Attached (pcs s) (calls s) ->
    Attached (pcs (run sdOk iceOk s tr)) (calls (run sdOk iceOk s tr)).
Proof.
  intros sdOk iceOk tr. induction tr as [|e tr IH]; intros s Hs.
  - exact Hs.
  - cbn [run fold_left]. apply IH. now apply step_attached.
Qed.

(** In every reachable state, every connection that was constructed was
    given the tracks of a local stream: the closure of the socket's
    handlers holds a stream, and [addTrack] was called on the connection
    for each track of that stream. *)
Theorem every_connection_has_local_tracks :
  forall (sdOk iceOk : string -> bool) (tr : list Event) (pc : PcId),
    let s := run sdOk iceOk init tr in
    pc < List.length (pcs s) ->
    exists (env : Env) (ts : MediaStream),
      socketRef s = Some env /\ e_localStream env = Some ts /\
      forall t : Track, In t ts -> In (AddTrack pc t) (calls s).
Proof.
  intros sdOk iceOk tr pc s Hpc.
  pose proof (run_wired sdOk iceOk tr init wired_init) as Hw.
  assert (Ha : Attached (pcs s) (calls s)).
  { apply run_attached. intros p e ts t H. destruct p; discriminate. }
  fold s in Hw. unfold wired in Hw.
  destruct (socketRef s) as [env|].
  - destruct Hw as [B1 _ B3 _ _].
    destruct (e_localStream env) as [ts|] eqn:Hts; [|congruence].
    exists env, ts. split; [reflexivity|]. split; [exact Hts|].
    intros t Ht.
    destruct (nth_error (pcs s) pc) as [env'|] eqn:Hn.
    + pose proof (Forall_nth_error _ _ _ _ _ B3 Hn) as He. subst env'.
      eapply Ha; eauto.
    + apply nth_error_None in Hn. lia.
  - destruct Hw as (_ & _ & Hp & _). rewrite Hp in Hpc. cbn in Hpc. lia.
Qed.

Lemma every_connection_has_local_tracks_witness :
  exists (env : Env) (ts : MediaStream),
    socketRef (run accept accept init connected_run) = Some env /\
    e_localStream env = Some ts /\
    forall t : Track,
      In t ts ->
      In (AddTrack 0 t) (calls (run accept accept init connected_run)).
Proof.
  apply (every_connection_has_local_tracks accept accept connected_run 0).
  vm_compute. lia.
Defined.

(** ** Constructed once, closed once *)

Lemma countNew_app :
  forall (pc : PcId) (l1 l2 : list EngineCall),
    countNew pc (l1 ++ l2) = countNew pc l1 + countNew pc l2.
Proof.
  intros pc l1 l2. induction l1 as [|c l1 IH]; [reflexivity|].
  destruct c; cbn; rewrite ?IH; lia.
Qed.

Lemma countClose_app :
  forall (pc : PcId) (l1 l2 : list EngineCall),
    countClose pc (l1 ++ l2) = countClose pc l1 + countClose pc l2.
Proof.
  intros pc l1 l2. induction l1 as [|c l1 IH]; [reflexivity|].
  destruct c; cbn; rewrite ?IH; lia.
Qed.

Lemma plain_counts :
  forall (pc : PcId) (l : list EngineCall),
    Forall (fun c => plain c = true) l ->
    countNew pc l = 0 /\ countClose pc l = 0.
Proof.
  intros pc l H. induction H as [|c l Hc Hl IH]; [auto|].
  destruct c; try discriminate Hc; exact IH.
Qed.

Lemma Once_init : Once 0 None [].
Proof. split; intros; try discriminate; reflexivity. Qed.

Lemma Once_app :
  forall (n : nat) (r : option PcId) (cs new : list EngineCall),
    Forall (fun c => plain c = true) new ->
    Once n r cs -> Once n r (cs ++ new).
Proof.
  intros n r cs new Hnew [H1 H2 H3]. split; intros pc;
    rewrite ?countNew_app, ?countClose_app;
    destruct (plain_counts pc new Hnew) as [E1 E2];
    rewrite ?E1, ?E2, ?Nat.add_0_r; auto.
Qed.

Lemma Once_new :
  forall (n : nat) (cs : list EngineCall),
    Once n None cs -> Once (S n) (Some n) (cs ++ [NewPC n]).
Proof.
  intros n cs [H1 H2 H3]. split; intros pc.
  - rewrite countNew_app, H1. cbn [countNew countClose].
    destruct (Nat.ltb_spec pc n), (Nat.ltb_spec pc (S n)),
      (Nat.eqb_spec n pc); lia.
  - intros Hpc. injection Hpc as <-. split; [lia|].
    rewrite countClose_app, H3 by discriminate. cbn [countNew countClose].
    destruct (Nat.ltb_spec n n); lia.
  - intros Hne. assert (pc <> n) by (intros ->; now apply Hne).
    rewrite countClose_app, H3 by discriminate. cbn [countNew countClose].
    destruct (Nat.ltb_spec pc n), (Nat.ltb_spec pc (S n)); lia.
Qed.

Lemma Once_close :
  forall (n : nat) (pc : PcId) (cs : list EngineCall),
    Once n (Some pc) cs -> Once n None (cs ++ [Close pc]).
Proof.
  intros n pc cs [H1 H2 H3]. split; intros pc'.
  - rewrite countNew_app, H1. cbn [countNew countClose]. lia.
  - discriminate.
  - intros _. rewrite countClose_app. cbn [countNew countClose].
    destruct (H2 pc eq_refl) as [Hlt H0].
    destruct (Nat.eqb_spec pc pc') as [<-|Hne].
    + rewrite H0. destruct (Nat.ltb_spec pc n); lia.
    + rewrite H3 by congruence. lia.
Qed.

Lemma plain_map_TrackStop :
  forall ts : list Track, Forall (fun c => plain c = true) (map TrackStop ts).
Proof. induction ts; constructor; auto. Qed.

Lemma plain_map_AddTrack :
  forall (pc : PcId) (ts : list Track),
    Forall (fun c => plain c = true) (map (AddTrack pc) ts).
Proof. induction ts; constructor; auto. Qed.

Ltac once_side :=
  solve [ apply plain_map_TrackStop
        | apply plain_map_AddTrack
        | repeat constructor ].

Ltac once_steps :=
  repeat first
    [ assumption
    | apply Once_close
    | apply Once_new
    | apply Once_app; [once_side|] ].

Lemma step_once :
  forall (sdOk iceOk : string -> bool) (s : State) (e : Event),
    Once (List.length (pcs s)) (pcRef s) (calls s) ->
    Once (List.length (pcs (step sdOk iceOk s e)))
      (pcRef (step sdOk iceOk s e)) (calls (step sdOk iceOk s e)).
Proof.
  intros sdOk iceOk s e.
  destruct e as [st|r| |m|i o|pc c|pc streams];
    [ | | | destruct m
      | cbn [step]; destruct (nth_error (pending s) i) as [k|];
        [destruct k, o|] | | ];
    unfold_component;
    repeat (cbn -[List.length]; try break_match);
    rewrite ?length_snoc;
    intros H;
    try match goal with E : pcRef s = _ |- _ => rewrite E end;
    once_steps.
Qed.

Lemma run_once :
  forall (sdOk iceOk : string -> bool) (tr : list Event) (s : State),
    Once (List.length (pcs s)) (pcRef s) (calls s) ->
    Once (List.length (pcs (run sdOk iceOk s tr)))
      (pcRef (run sdOk iceOk s tr)) (calls (run sdOk iceOk s tr)).
Proof.
  intros sdOk iceOk tr. induction tr as [|e tr IH]; intros s Hs.
  - exact Hs.
  - cbn [run fold_left]. apply IH. now apply step_once.
Qed.

(** In every reachable state each connection was constructed at most once
    and closed at most once, and never closed without having been
    constructed.  The referenced connection was constructed and is not
    closed; every other constructed connection was closed exactly once. *)
Theorem connections_constructed_once_closed_once :
  forall (sdOk iceOk : string -> bool) (tr : list Event) (pc : PcId),
    let s := run sdOk iceOk init tr in
    countNew pc (calls s) <= 1 /\
    countClose pc (calls s) <= countNew pc (calls s) /\
    (pcRef s = Some pc ->
     countNew pc (calls s) = 1 /\ countClose pc (calls s) = 0) /\
    (pcRef s <> Some pc -> countClose pc (calls s) = countNew pc (calls s)).
Proof.
  intros sdOk iceOk tr pc s.
  destruct (run_once sdOk iceOk tr init Once_init) as [H1 H2 H3].
  fold s in H1, H2, H3.
  assert (Hdec : pcRef s = Some pc \/ pcRef s <> Some pc).
  { destruct (pcRef s) as [p|]; [|right; discriminate].
    destruct (Nat.eq_dec p pc) as [->|Hne]; [left; reflexivity|].
    right. congruence. }
  rewrite H1.
  destruct Hdec as [Hr|Hr].
  - destruct (H2 pc Hr) as [Hlt H0]. rewrite H0.
    destruct (Nat.ltb_spec pc (List.length (pcs s))); [|lia].
    repeat split; try lia. intros; contradiction.
  - rewrite (H3 pc Hr).
    destruct (Nat.ltb_spec pc (List.length (pcs s)));
      repeat split; try lia; intros; contradiction.
Qed.

(** ** What a teardown stops *)

Lemma senders_In :
  forall (pc : PcId) (t : Track) (cs : list EngineCall),
    In t (senders pc cs) <-> In (AddTrack pc t) cs.
Proof.
  intros pc t cs. induction cs as [|c cs IH]; [tauto|].
  destruct c as [p|p t'|p|p|p d|p d|p c|t'|p]; cbn [senders In];
    try (split;
         [ intros H; right; apply IH; exact H
         | intros [H|H]; [discriminate | apply IH; exact H] ]).
  destruct (Nat.eqb_spec p pc) as [->|Hne]; cbn [In].
  - split.
    + intros [->|H]; [now left | right; now apply IH].
    + intros [H|H]; [left; congruence | right; now apply IH].
  - split.
    + intros H. right. now apply IH.
    + intros [H|H]; [congruence | now apply IH].
Qed.

(** [endCall] on a referenced connection stops the tracks that were added
    to that connection, all of them and no track of another connection,
    and closes the connection after the last stop. *)
Theorem endCall_stops_the_senders :
  forall (env : Env) (s : State) (pc : PcId),
    pcRef s = Some pc ->
    calls (endCall env s)
    = calls s ++ map TrackStop (senders pc (calls s)) ++ [Close pc] /\
    forall t : Track,
      In (TrackStop t) (map TrackStop (senders pc (calls s)))
      <-> In (AddTrack pc t) (calls s).
Proof.
  intros env s pc Hpc. split.
  - unfold endCall.
    destruct (socketRef s), (truthy (e_roomId env));
      cbn; rewrite Hpc; cbn; now rewrite <- List.app_assoc.
  - intros t. rewrite <- senders_In. rewrite in_map_iff. split.
    + intros (t' & Ht' & Hin). now injection Ht' as ->.
    + intros Hin. now exists t.
Qed.

Lemma endCall_stops_the_senders_witness :
  calls (endCall (mkEnv "test-room" (Some [1; 2]))
           (run accept accept init connected_run))
  = calls (run accept accept init connected_run)
      ++ [TrackStop 1; TrackStop 2; Close 0].
Proof.
  assert (Hpc : pcRef (run accept accept init connected_run) = Some 0)
    by (vm_compute; reflexivity).
  destruct (endCall_stops_the_senders (mkEnv "test-room" (Some [1; 2]))
              _ 0 Hpc) as [Hc _].
  vm_compute in Hc. vm_compute. exact Hc.
Defined.

(** ** Failures during a negotiation *)

(** A rejected promise ends the handler that awaited it and nothing else:
    nothing is emitted, no engine call is made, the status, the joined
    flag and the peer-connection reference stay as they are, and only the
    [ice-candidate] handler writes a line to the console.  The attempt is
    not torn down and no error reaches the status. *)
Theorem rejection_ends_handler_silently :
  forall (sdOk iceOk : string -> bool) (s : State) (i : nat) (k : Cont),
    nth_error (pending s) i = Some k ->
    let s' := step sdOk iceOk s (Settle i Rejected) in
    observable s' = observable s /\
    calls s' = calls s /\
    pcs s' = pcs s /\
    pending s' = removeAt i (pending s) /\
    console s' =
      match k with
      | IceAdded => console s ++ ["Failed to add ICE"]
      | _ => console s
      end.
Proof.
  intros sdOk iceOk s i k Hk. cbn zeta. cbn [step]. rewrite Hk.
  destruct k; cbn; auto 10.
Qed.

Lemma rejection_ends_handler_silently_witness :
  let s := run accept accept init offer_in_flight_run in
  observable (step accept accept s (Settle 0 Rejected)) = observable s.
Proof.
  cbn zeta.
  assert (Hk : nth_error
                 (pending (run accept accept init offer_in_flight_run)) 0
               = Some (ReadyLocalSet (mkEnv "test-room" (Some [1; 2])) 0
                         "sdp-offer"))
    by (vm_compute; reflexivity).
  exact (proj1 (rejection_ends_handler_silently accept accept _ 0 _ Hk)).
Defined.

(** An [offer] or [answer] whose description the constructor refuses
    leaves no trace in the status, in the emitted messages or among the
    suspended handlers; yet [ensurePeer] has already run, so a connection
    is referenced afterwards even if none was before. *)
Theorem refused_description_still_creates_peer :
  forall (sdOk iceOk : string -> bool) (s : State) (env : Env) (d : Sdp)
         (m : InMsg),
    socketRef s = Some env ->
    sdOk d = false ->
    m = Offer d \/ m = Answer d ->
    let s' := step sdOk iceOk s (Socket m) in
    s' = fst (ensurePeer env s) /\
    pcRef s' = Some (snd (ensurePeer env s)) /\
    status s' = status s /\ sent s' = sent s /\ pending s' = pending s /\
    joined s' = joined s.
Proof.
  intros sdOk iceOk s env d m Hs Hd Hm. cbn zeta.
  assert (Hstep : step sdOk iceOk s (Socket m) = fst (ensurePeer env s)).
  { cbn [step]. rewrite Hs.
    destruct Hm as [-> | ->]; cbn [onSocket]; rewrite Hd;
      now destruct (ensurePeer env s). }
  rewrite Hstep. split; [reflexivity|].
  unfold ensurePeer. destruct (pcRef s) eqn:Hpc; cbn; auto 10.
Qed.

Lemma refused_description_still_creates_peer_witness :
  let s := run accept accept init [LocalStreamAcquired [1; 2]; PressButton] in
  pcRef s = None /\
  pcRef (step (fun _ => false) accept s (Socket (Offer "garbage"))) = Some 0.
Proof.
  cbn zeta. split; [vm_compute; reflexivity|].
  assert (Hs : socketRef (run accept accept init
                 [LocalStreamAcquired [1; 2]; PressButton])
               = Some (mkEnv "test-room" (Some [1; 2])))
    by (vm_compute; reflexivity).
  destruct (refused_description_still_creates_peer (fun _ => false) accept
              _ _ "garbage" (Offer "garbage") Hs eq_refl
              (or_introl eq_refl)) as (_ & Hp & _).
  vm_compute in Hp. exact Hp.
Defined.

(** ** Join and leave, back to back *)

(** A press of Join followed by a press of Leave emits [join] for the room
    in the field and then [leave] for the same room, unless the field is
    empty: the empty room is joined, [joinRoom] has no guard on it, but
    never left, because [endCall] skips the [leave] for an empty room. *)
Theorem join_then_leave_messages :
  forall (sdOk iceOk : string -> bool) (s : State),
    localStream s <> None ->
    joined s = false ->
    let s2 := step sdOk iceOk (step sdOk iceOk s PressButton) PressButton in
    sent s2 =
      sent s ++ EmitJoin (roomId s)
             :: (if truthy (roomId s) then [EmitLeave (roomId s)] else [])
    /\ joined s2 = false /\ socketRef s2 <> None.
Proof.
  intros sdOk iceOk s Hls Hj.
  destruct s as [r j st ls rs so pr ps pd cs sn co].
  cbn in Hls, Hj. subst j.
  destruct ls as [ts|]; [|contradiction].
  cbn zeta. unfold step, joinRoom, connectSocket, emit, endCall, render.
  destruct so as [env|], (truthy r) eqn:Hr, pr as [pc|]; cbn; rewrite ?Hr;
    cbn; rewrite <- ?List.app_assoc; cbn;
    repeat split; try reflexivity; discriminate.
Qed.

Lemma join_then_leave_messages_witness :
  sent (run accept accept init
          [LocalStreamAcquired [1; 2]; ChangeRoomId "";
           PressButton; PressButton])
  = [EmitJoin ""].
Proof.
  assert (H1 : localStream (run accept accept init
                 [LocalStreamAcquired [1; 2]; ChangeRoomId ""]) <> None)
    by (vm_compute; discriminate).
  destruct (join_then_leave_messages accept accept _ H1 eq_refl)
    as (Hs & _).
  vm_compute in Hs. vm_compute. exact Hs.
Defined.

(** ** Unmount *)

(** [cleanup] leaves nothing to react with: the component is idle, the
    socket reference and the local stream are empty, and afterwards
    neither a message of the relay nor a press of the button changes
    anything. *)
Theorem cleanup_releases_everything :
  forall (sdOk iceOk : string -> bool) (env : Env) (s : State),
    let s' := cleanup env s in
    idle s' /\ socketRef s' = None /\ localStream s' = None /\
    (forall m : InMsg, step sdOk iceOk s' (Socket m) = s') /\
    step sdOk iceOk s' PressButton = s'.
Proof.
  intros sdOk iceOk env s. cbn zeta.
  destruct (endCall_idle env s) as ((H1 & H2 & H3 & H4) & _).
  assert (Hi : idle (cleanup env s)).
  { unfold cleanup, idle. destruct (e_localStream env); cbn; auto. }
  assert (Hs : socketRef (cleanup env s) = None).
  { unfold cleanup. destruct (e_localStream env); reflexivity. }
  assert (Hl : localStream (cleanup env s) = None).
  { unfold cleanup. destruct (e_localStream env); reflexivity. }
  repeat split; try apply Hi; try assumption.
  - intros m. cbn [step]. now rewrite Hs.
  - cbn [step]. destruct Hi as (_ & _ & _ & Hj). rewrite Hj.
    unfold joinRoom, render. cbn [e_localStream]. now rewrite Hl.
Qed.

(** With the closure of the first render, in which no stream is held yet,
    running [cleanup] twice is running it once. *)
Theorem cleanup_idempotent_without_stream :
  forall (env : Env) (s : State),
    e_localStream env = None ->
    cleanup env (cleanup env s) = cleanup env s.
Proof.
  intros env s Henv. unfold cleanup. rewrite Henv.
  unfold endCall.
  destruct s as [r j st ls rs so pr ps pd cs sn co].
  destruct so, (truthy (e_roomId env)), pr; reflexivity.
Qed.

Lemma cleanup_idempotent_without_stream_witness :
  unmount (unmount (run accept accept init connected_run))
  = unmount (run accept accept init connected_run).
Proof.
  exact (cleanup_idempotent_without_stream mountEnv
           (run accept accept init connected_run) eq_refl).
Defined.

(** The [cleanup] that runs at unmount is the one of the first render.  It
    emits [leave] for the initial room "test-room", whatever room was
    joined; and since that render held no stream it stops no local track
    of its own: its engine calls are those of [endCall], and without a
    referenced connection it makes none, so the tracks of the acquired
    stream keep running. *)
Theorem unmount_uses_first_render :
  forall (s : State) (env : Env),
    socketRef s = Some env ->
    sent (unmount s) = sent s ++ [EmitLeave "test-room"] /\
    calls (unmount s) = calls (endCall mountEnv s) /\
    (pcRef s = None -> calls (unmount s) = calls s).
Proof.
  intros s env Hs.
  assert (Hc : calls (unmount s) = calls (endCall mountEnv s)) by reflexivity.
  split; [|split].
  - change (sent (unmount s)) with (sent (endCall mountEnv s)).
    rewrite endCall_sent, Hs. reflexivity.
  - exact Hc.
  - intros Hpc. rewrite Hc. now apply endCall_no_pc_calls.
Qed.

Lemma unmount_uses_first_render_witness :
  sent (unmount (run accept accept init rejoin_other_room))
  = [ EmitJoin "test-room"; EmitLeave "test-room"; EmitJoin "r2";
      EmitOffer "test-room" "sdp-offer"; EmitLeave "test-room" ].
Proof.
  assert (Hs : socketRef (run accept accept init rejoin_other_room)
               = Some (mkEnv "test-room" (Some [1; 2])))
    by (vm_compute; reflexivity).
  destruct (unmount_uses_first_render _ _ Hs) as (H & _).
  vm_compute in H. vm_compute. exact H.
Defined.

(** ** Suspended handlers come to an end *)

Lemma list_sum_removeAt :
  forall (A : Type) (f : A -> nat) (l : list A) (i : nat) (x : A),
    nth_error l i = Some x ->
    list_sum (map f (removeAt i l)) + f x = list_sum (map f l).
Proof.
  intros A f l. unfold removeAt.
  induction l as [|a l IH]; intros i x Hx.
  - destruct i; discriminate.
  - destruct i as [|i].
    + injection Hx as ->. cbn. lia.
    + cbn [nth_error] in Hx. specialize (IH i x Hx).
      change (firstn (S i) (a :: l) ++ skipn (S (S i)) (a :: l))
        with (a :: (firstn i l ++ skipn (S i) l)).
      unfold list_sum in *. cbn [map fold_right]. lia.
Qed.

(** Every settlement of an awaited promise, fulfilled or rejected, takes
    the handler that awaited it strictly closer to its end, and no handler
    is more than three settlements away from it: the [await]s still to
    come, summed over the suspended handlers, decrease. *)
Theorem settlement_brings_handlers_to_an_end :
  forall (sdOk iceOk : string -> bool) (s : State) (i : nat) (o : Outcome)
         (k : Cont),
    nth_error (pending s) i = Some k ->
    awaitsPending (step sdOk iceOk s (Settle i o)) < awaitsPending s /\
    awaitsLeft k <= 3.
Proof.
  intros sdOk iceOk s i o k Hk.
  pose proof (list_sum_removeAt _ awaitsLeft _ _ _ Hk) as Hsum.
  cbn [step]. rewrite Hk. unfold awaitsPending.
  destruct k, o; cbn [awaitsLeft] in *;
    unfold resume, emit, await, call, warn;
    repeat (cbn -[removeAt list_sum map Nat.add]; try break_match);
    rewrite ?map_app, ?list_sum_app; cbn [map awaitsLeft];
    repeat match goal with
           | |- context [list_sum [?n]] => change (list_sum [n]) with (n + 0)
           end;
    lia.
Qed.

Lemma settlement_brings_handlers_to_an_end_witness :
  let s := run accept accept init offer_in_flight_run in
  awaitsPending (step accept accept s (Settle 0 (Fulfilled "")))
  < awaitsPending s.
Proof.
  cbn zeta.
  assert (Hk : nth_error
                 (pending (run accept accept init offer_in_flight_run)) 0
               = Some (ReadyLocalSet (mkEnv "test-room" (Some [1; 2])) 0
                         "sdp-offer"))
    by (vm_compute; reflexivity).
  exact (proj1 (settlement_brings_handlers_to_an_end accept accept _ 0
                  (Fulfilled "") _ Hk)).
Defined.

(** ** The socket outlives every leave *)

Lemma run_keeps_socket_witness :
  socketRef (run accept accept
               (run accept accept init
                  [LocalStreamAcquired [1; 2]; PressButton])
               [PressButton; ChangeRoomId "r2"; PressButton; Socket PeerLeft])
  = Some (mkEnv "test-room" (Some [1; 2])).
Proof.
  apply run_keeps_socket. vm_compute. reflexivity.
Defined.
